(** * FlagGame: the viewer's recolouring logic and the flag generator's layout

    The viewer part embeds [components/flag.jsx], [components/colorPicker.jsx]
    and [App.jsx]: JavaScript values, the shape elements of the injected SVG
    with the two attributes the code touches ([id] and [fill]) and their click
    listeners, the React state of the three components, and the handlers
    [componentClick] and [extractSvgData].

    Modelling conventions.
    - The SVG is the list of its elements in document order; an element of
      class [flag-component] is a shape.  Shapes are not nested in one
      another, so a click reaches the listeners of the clicked shape only.
    - [setAttribute] stores the DOMString conversion of its argument, so
      [undefined] is stored as the text "undefined" and [null] as "null".
    - The two objects [newFlagComponents] and [usedGreys] are object
      literals: maps from property keys to the values of their own
      properties, behind which the members inherited from [Object.prototype]
      (such as "constructor") are found; a [null] id is the property key
      "null".  The spread of such a member throws a TypeError, which ends
      [extractSvgData] where it stands.
    - React: a state setter called with the current value does nothing, an
      effect runs after mount and after each change of its dependency. *)

From Stdlib Require Import QArith Reals Lra.
From stdpp Require Import gmap strings list fin_maps.

Set Warnings "-clear-no-such-hyp".

(** ** JavaScript values *)

Module JS.

Inductive value : Type :=
| VUndefined
| VNull
| VString (s : string).

#[export] Instance value_eq_dec : EqDecision value.
Proof. solve_decision. Defined.

(** ToBoolean on the values above: only a non-empty string is truthy. *)
Definition truthy (v : value) : bool :=
  match v with
  | VString s => negb (String.eqb s EmptyString)
  | _ => false
  end.

(** Conversion to DOMString, as done by [setAttribute]; the conversion to a
    property key gives the same text on these values. *)
Definition to_DOMString (v : value) : string :=
  match v with
  | VUndefined => "undefined"
  | VNull => "null"
  | VString s => s
  end.

Definition property_key (v : value) : string := to_DOMString v.

(** [a === b] *)
Definition strict_eq (a b : value) : bool := bool_decide (a = b).

(** The names of the members that an object literal inherits from
    [Object.prototype]; each is a function, but "__proto__", which is the
    prototype itself: all are truthy and none is iterable. *)
Definition inherited : list string :=
  ["constructor"; "__defineGetter__"; "__defineSetter__"; "hasOwnProperty";
   "__lookupGetter__"; "__lookupSetter__"; "isPrototypeOf";
   "propertyIsEnumerable"; "toString"; "valueOf"; "__proto__";
   "toLocaleString"].

Definition inherits (key : string) : bool := bool_decide (key ∈ inherited).

(** What [obj[k]] finds on an object literal used as a map: an own
    property, else an inherited member, else nothing ([undefined]). *)
Inductive property (V : Type) : Type :=
| Own (v : V)
| Inherited
| Missing.

Arguments Own {V} v.
Arguments Inherited {V}.
Arguments Missing {V}.

Definition get_property {V} (obj : gmap string V) (k : value) : property V :=
  match obj !! property_key k with
  | Some v => Own v
  | None => if inherits (property_key k) then Inherited else Missing
  end.

(** [Array.prototype.pop]: removes and returns the last entry, and returns
    [undefined] on an empty array. *)
Definition pop (a : list string) : value * list string :=
  match last a with
  | Some x => (VString x, removelast a)
  | None => (VUndefined, a)
  end.

End JS.
Import JS.

(** ** The SVG document *)

(** What a click listener installed by [extractSvgData] captured: the arguments
    [el], [id] and [color] of its call of [componentClick]. *)
Record listener : Type := Listener {
  l_el : nat;
  l_id : value;
  l_color : value
}.

Record element : Type := Element {
  flag_component : bool;
  attr_id : option string;
  attr_fill : option string;
  listeners : list listener
}.

Definition attr_value (a : option string) : value :=
  match a with
  | Some s => VString s
  | None => VNull
  end.

(** [el.getAttribute('id')] and [el.getAttribute('fill')] *)
Definition getAttribute_id (e : element) : value := attr_value (attr_id e).
Definition getAttribute_fill (e : element) : value := attr_value (attr_fill e).

Definition set_fill (v : value) (e : element) : element :=
  {| flag_component := flag_component e;
     attr_id := attr_id e;
     attr_fill := Some (to_DOMString v);
     listeners := listeners e |}.

Definition add_listener (l : listener) (e : element) : element :=
  {| flag_component := flag_component e;
     attr_id := attr_id e;
     attr_fill := attr_fill e;
     listeners := listeners e ++ [l] |}.

(** [el.setAttribute('fill', v)] and [el.addEventListener('click', ...)] on
    the element at position [i] of the document. *)
Definition setAttribute_fill (i : nat) (v : value) (svg : list element) : list element :=
  alter (set_fill v) i svg.

Definition addEventListener (i : nat) (l : listener) (svg : list element) : list element :=
  alter (add_listener l) i svg.

(** [svgElement.querySelectorAll('.flag-component')]: the positions of the
    shapes, in document order. *)
Fixpoint querySelectorAll_from (start : nat) (svg : list element) : list nat :=
  match svg with
  | [] => []
  | e :: rest =>
      if flag_component e
      then start :: querySelectorAll_from (S start) rest
      else querySelectorAll_from (S start) rest
  end.

Definition querySelectorAll (svg : list element) : list nat :=
  querySelectorAll_from 0 svg.

(** ** [componentClick] (flag.jsx) *)

(** The body of the [forEach] callback of [componentClick]. *)
Definition click_each (current id : value) (svg : list element) (i : nat) : list element :=
  match svg !! i with
  | Some el =>
      if strict_eq (getAttribute_id el) id
      then setAttribute_fill i current svg
      else svg
  | None => svg
  end.

(** [current] is [selectedColorRef.current] when the handler runs. *)
Definition componentClick (current : value) (svg : list element)
    (component : nat) (id color : value) : list element :=
  if truthy id
  then foldl (click_each current id) svg (querySelectorAll svg)
  else setAttribute_fill component current svg.

(** ** [extractSvgData] (flag.jsx) *)

Definition grays : list string :=
  ["#808080"; "#909090"; "#9D9D9D"; "#A7A7A7"].

(** One entry of a list stored in [newFlagComponents]. *)
Record component : Type := Component {
  c_el : nat;
  c_id : value;
  c_color : value
}.

(** The variables of [extractSvgData] that its loop updates. *)
Record extract_state : Type := ExtractState {
  x_grays : list string;
  x_newFlagComponents : gmap string (list component);
  x_usedGreys : gmap string value;
  x_svg : list element;
  (** a TypeError has ended the loop *)
  x_thrown : bool
}.

(** Lines 45-58: the entry of [newFlagComponents] for the element, or
    [None] for the TypeError of the spread at lines 46-51, when
    [newFlagComponents[id]] is a member inherited from [Object.prototype]:
    truthy, but not iterable. *)
Definition record_component (i : nat) (id color : value)
    (m : gmap string (list component)) : option (gmap string (list component)) :=
  let c := {| c_el := i; c_id := id; c_color := color |} in
  if truthy id then
    match get_property m id with
    | Own old => Some (<[property_key id := c :: old]> m)
    | Inherited => None
    | Missing => Some (<[property_key id := [c]]> m)
    end
  else Some (<[property_key id := [c]]> m).

(** Lines 59-71: the value given to [setAttribute('fill', ...)], with the
    palette and [usedGreys] as the choice leaves them.  With an id that
    names an inherited member, [usedGreys[id]] is that member: nothing would
    be popped and the member itself handed to [setAttribute]; the lines are
    not reached then, line 46 having thrown, and no result is given. *)
Definition assign_gray (id : value) (gs : list string) (used : gmap string value)
    : option (value * list string * gmap string value) :=
  if truthy id then
    match get_property used id with
    | Own v =>
        if negb (truthy v) then
          let '(g, gs') := pop gs in
          Some (g, gs', <[property_key id := g]> used)
        else Some (v, gs, used)
    | Inherited => None
    | Missing =>
        let '(g, gs') := pop gs in
        Some (g, gs', <[property_key id := g]> used)
    end
  else
    let '(g, gs') := pop gs in Some (g, gs', used).

(** The state in which a TypeError leaves the variables: as they were. *)
Definition thrown (st : extract_state) : extract_state :=
  {| x_grays := x_grays st; x_newFlagComponents := x_newFlagComponents st;
     x_usedGreys := x_usedGreys st; x_svg := x_svg st; x_thrown := true |}.

(** The body of the [forEach] callback of [extractSvgData]; once a
    TypeError has been thrown the callback runs no more. *)
Definition extract_each (st : extract_state) (i : nat) : extract_state :=
  if x_thrown st then st else
  match x_svg st !! i with
  | Some el =>
      let color := getAttribute_fill el in
      let id := getAttribute_id el in
      match record_component i id color (x_newFlagComponents st) with
      | Some m =>
          match assign_gray id (x_grays st) (x_usedGreys st) with
          | Some (g, gs, used) =>
              let svg1 := setAttribute_fill i g (x_svg st) in
              let svg2 :=
                addEventListener i {| l_el := i; l_id := id; l_color := color |} svg1 in
              {| x_grays := gs; x_newFlagComponents := m; x_usedGreys := used;
                 x_svg := svg2; x_thrown := false |}
          | None => thrown st
          end
      | None => thrown st
      end
  | None => st
  end.

Definition extract_init (svg : list element) : extract_state :=
  {| x_grays := grays; x_newFlagComponents := ∅; x_usedGreys := ∅; x_svg := svg;
     x_thrown := false |}.

(** The loop of [extractSvgData] over the given shapes. *)
Definition extract_loop (svg : list element) (shapes : list nat) : extract_state :=
  foldl extract_each (extract_init svg) shapes.

(** [extractSvgData svgElement]: the document it leaves and, unless a
    TypeError was thrown, the map it hands to [setFlagComponents]. *)
Definition extractSvgData (svg : list element) : extract_state :=
  extract_loop svg (querySelectorAll svg).

(** ** The three components: [App], [Flag] and [ColourPicker] *)

Definition swatches : list string :=
  ["#000000"; "#FFFFFF"; "#C8102E"; "#FFCD00"; "#ABCAE9"; "#003DA5"; "#1B7339"].

Record app_state : Type := AppState {
  (** [App]: [useState('ua')] and [useState('#FFFFFF')] *)
  app_flag : string;
  app_color : value;
  (** [ColourPicker]: [useState(null)] *)
  picker_selectedColor : value;
  (** [Flag]: its state, its ref, and the SVG that [ReactSVG] injected;
      its props are [countryCode = app_flag] and [selectedColor = app_color] *)
  flag_flagComponents : gmap string (list component);
  flag_selectedColorRef : value;
  flag_loading : bool;
  document_svg : option (list element);
  (** the arguments of the calls of [selectColor] so far, oldest first *)
  selectColor_calls : list value
}.

Definition with_color (c : value) (st : app_state) : app_state :=
  {| app_flag := app_flag st; app_color := c;
     picker_selectedColor := picker_selectedColor st;
     flag_flagComponents := flag_flagComponents st;
     flag_selectedColorRef := flag_selectedColorRef st;
     flag_loading := flag_loading st;
     document_svg := document_svg st;
     selectColor_calls := selectColor_calls st |}.

Definition with_flag (code : string) (st : app_state) : app_state :=
  {| app_flag := code; app_color := app_color st;
     picker_selectedColor := picker_selectedColor st;
     flag_flagComponents := flag_flagComponents st;
     flag_selectedColorRef := flag_selectedColorRef st;
     flag_loading := flag_loading st;
     document_svg := document_svg st;
     selectColor_calls := selectColor_calls st |}.

Definition with_picked (c : value) (st : app_state) : app_state :=
  {| app_flag := app_flag st; app_color := app_color st;
     picker_selectedColor := c;
     flag_flagComponents := flag_flagComponents st;
     flag_selectedColorRef := flag_selectedColorRef st;
     flag_loading := flag_loading st;
     document_svg := document_svg st;
     selectColor_calls := selectColor_calls st |}.

Definition with_ref (c : value) (st : app_state) : app_state :=
  {| app_flag := app_flag st; app_color := app_color st;
     picker_selectedColor := picker_selectedColor st;
     flag_flagComponents := flag_flagComponents st;
     flag_selectedColorRef := c;
     flag_loading := flag_loading st;
     document_svg := document_svg st;
     selectColor_calls := selectColor_calls st |}.

Definition with_loading (b : bool) (st : app_state) : app_state :=
  {| app_flag := app_flag st; app_color := app_color st;
     picker_selectedColor := picker_selectedColor st;
     flag_flagComponents := flag_flagComponents st;
     flag_selectedColorRef := flag_selectedColorRef st;
     flag_loading := b;
     document_svg := document_svg st;
     selectColor_calls := selectColor_calls st |}.

Definition with_svg (svg : option (list element)) (st : app_state) : app_state :=
  {| app_flag := app_flag st; app_color := app_color st;
     picker_selectedColor := picker_selectedColor st;
     flag_flagComponents := flag_flagComponents st;
     flag_selectedColorRef := flag_selectedColorRef st;
     flag_loading := flag_loading st;
     document_svg := svg;
     selectColor_calls := selectColor_calls st |}.

Definition with_components (m : gmap string (list component)) (st : app_state) : app_state :=
  {| app_flag := app_flag st; app_color := app_color st;
     picker_selectedColor := picker_selectedColor st;
     flag_flagComponents := m;
     flag_selectedColorRef := flag_selectedColorRef st;
     flag_loading := flag_loading st;
     document_svg := document_svg st;
     selectColor_calls := selectColor_calls st |}.

Definition log_selectColor (c : value) (st : app_state) : app_state :=
  {| app_flag := app_flag st; app_color := app_color st;
     picker_selectedColor := picker_selectedColor st;
     flag_flagComponents := flag_flagComponents st;
     flag_selectedColorRef := flag_selectedColorRef st;
     flag_loading := flag_loading st;
     document_svg := document_svg st;
     selectColor_calls := selectColor_calls st ++ [c] |}.

(** [Flag], lines 11-13: the effect on [countryCode]. *)
Definition flag_effect_countryCode (st : app_state) : app_state :=
  with_loading true st.

(** [Flag], lines 15-17: the effect on [selectedColor]. *)
Definition flag_effect_selectedColor (st : app_state) : app_state :=
  with_ref (app_color st) st.

(** [App]: [setColor], then the render of [Flag] with the new prop. *)
Definition setColor (c : value) (st : app_state) : app_state :=
  if decide (c = app_color st) then st
  else flag_effect_selectedColor (with_color c st).

(** [App]: [setFlag], then the render of [Flag] with the new prop. *)
Definition setFlag (code : string) (st : app_state) : app_state :=
  if decide (code = app_flag st) then st
  else flag_effect_countryCode (with_flag code st).

(** [App], line 27: the [selectColor] prop given to [ColourPicker]. *)
Definition selectColor (c : value) (st : app_state) : app_state :=
  setColor c (log_selectColor c st).

(** [ColourPicker], lines 104-106: the effect on [selectedColor]. *)
Definition picker_effect (st : app_state) : app_state :=
  selectColor (picker_selectedColor st) st.

(** [ColourPicker]: [setSelectedColor], then its render. *)
Definition setSelectedColor (c : value) (st : app_state) : app_state :=
  if decide (c = picker_selectedColor st) then st
  else picker_effect (with_picked c st).

(** The first render, before any effect has run. *)
Definition first_render : app_state :=
  {| app_flag := "ua"; app_color := VString "#FFFFFF";
     picker_selectedColor := VNull;
     flag_flagComponents := ∅;
     flag_selectedColorRef := VString "#FFFFFF";
     flag_loading := true;
     document_svg := None;
     selectColor_calls := [] |}.

(** Mount: the first render, then the effects of [Flag] and of
    [ColourPicker] in the order of the components in [App]. *)
Definition mount : app_state :=
  picker_effect (flag_effect_selectedColor (flag_effect_countryCode first_render)).

(** A freshly injected element carries no listener. *)
Definition injected (e : element) : element :=
  {| flag_component := flag_component e; attr_id := attr_id e;
     attr_fill := attr_fill e; listeners := [] |}.

(** The timeout of [loadFlag], lines 81-86.  A TypeError thrown in
    [extractSvgData] leaves the callback before lines 76-77: the document
    keeps what the loop did to it, and neither [setFlagComponents] nor
    [setLoading] is called. *)
Definition loadFlag_timeout (st : app_state) : app_state :=
  match document_svg st with
  | Some svgElement =>
      let x := extractSvgData svgElement in
      if x_thrown x
      then with_svg (Some (x_svg x)) st
      else with_loading false
             (with_components (x_newFlagComponents x)
                (with_svg (Some (x_svg x)) st))
  | None => st
  end.

(** A click on the element at position [i]: its listeners run in the order
    they were added, each calling [componentClick]. *)
Definition dispatch_click (i : nat) (st : app_state) : app_state :=
  match document_svg st with
  | Some svgElement =>
      match svgElement !! i with
      | Some e =>
          with_svg
            (Some (foldl (fun svg l =>
                     componentClick (flag_selectedColorRef st) svg
                       (l_el l) (l_id l) (l_color l))
                   svgElement (listeners e))) st
      | None => st
      end
  | None => st
  end.

Inductive event : Type :=
| PickSwatch (n : nat)                  (** click on the [n]-th swatch *)
| SelectCountry (code : string)         (** the [select] changes *)
| Injected (doc : list element)         (** [ReactSVG] injected a document *)
| LoadTimeout                           (** the timeout of [loadFlag] fires *)
| ClickShape (i : nat).                 (** click on the element at [i] *)

Definition step (st : app_state) (ev : event) : app_state :=
  match ev with
  | PickSwatch n =>
      match swatches !! n with
      | Some c => setSelectedColor (VString c) st
      | None => st
      end
  | SelectCountry code => setFlag code st
  | Injected doc => with_svg (Some (injected <$> doc)) st
  | LoadTimeout => loadFlag_timeout st
  | ClickShape i => dispatch_click i st
  end.

Definition run (evs : list event) : app_state := foldl step mount evs.

(** ** Ids that name no inherited member *)

(** The id of the element names no member inherited from
    [Object.prototype], or the element is no shape. *)
Definition safe_element (e : element) : bool :=
  negb (flag_component e && inherits (property_key (getAttribute_id e))).

Definition ids_safe (svg : list element) : bool := forallb safe_element svg.

(** The same, of the element at a position of the document. *)
Definition safe_at (svg : list element) (i : nat) : Prop :=
  ∀ e, svg !! i = Some e → inherits (property_key (getAttribute_id e)) = false.

#[export] Instance safe_at_dec (svg : list element) (i : nat) : Decision (safe_at svg i).
Proof.
  unfold safe_at. destruct (svg !! i) as [e|].
  - destruct (inherits (property_key (getAttribute_id e))) eqn:H.
    + right. intros Hs. specialize (Hs e eq_refl). congruence.
    + left. by intros e' [= <-].
  - left. intros e H. discriminate.
Defined.

(** [newFlagComponents] has no own property under an inherited name. *)
Definition keys_safe (m : gmap string (list component)) : Prop :=
  ∀ k, is_Some (m !! k) → inherits k = false.

(** The first shape whose id names an inherited member, if there is one:
    its rank among the shapes and its position in the document. *)
Definition throws_at (svg : list element) : option (nat * nat) :=
  list_find (fun j => ¬ safe_at svg j) (querySelectorAll svg).

(** ** Identity groups *)

(** The group of a shape: the shapes with the same non-empty id, or the
    shape alone when it has no id. *)
Inductive group : Type :=
| ById (s : string)
| Alone (i : nat).

#[export] Instance group_eq_dec : EqDecision group.
Proof. solve_decision. Defined.

Definition group_of (i : nat) (e : element) : group :=
  match attr_id e with
  | Some s => if String.eqb s EmptyString then Alone i else ById s
  | None => Alone i
  end.

(** The groups of the shapes at the given positions. *)
Definition groups_at (svg : list element) (shapes : list nat) : list group :=
  omap (fun i => group_of i <$> svg !! i) shapes.

(** The distinct entries of a list, in the order of their first occurrence. *)
Definition add_seen {A} `{EqDecision A} (seen : list A) (k : A) : list A :=
  if decide (k ∈ seen) then seen else seen ++ [k].

Definition first_seen {A} `{EqDecision A} (l : list A) : list A :=
  foldl add_seen [] l.

(** The distinct groups of a document, in the order they first appear. *)
Definition shape_groups (svg : list element) : list group :=
  first_seen (groups_at svg (querySelectorAll svg)).

(** The value that the [n]-th call of [grays.pop()] returns (from 0). *)
Definition popped (n : nat) : value :=
  match reverse grays !! n with
  | Some g => VString g
  | None => VUndefined
  end.

(** The state of [extractSvgData] when its loop reaches its [k]-th shape
    (from 0). *)
Definition extract_before (svg : list element) (k : nat) : extract_state :=
  extract_loop svg (take k (querySelectorAll svg)).

(** The fill attribute that [extractSvgData] leaves at position [j]. *)
Definition placeholder (svg : list element) (j : nat) : option string :=
  x_svg (extractSvgData svg) !! j ≫= attr_fill.

(** The listener that [extractSvgData] adds to the shape at [j]. *)
Definition listener_of (j : nat) (e : element) : listener :=
  {| l_el := j; l_id := getAttribute_id e; l_color := getAttribute_fill e |}.

(** What [componentClick] does to one shape when the id is truthy. *)
Definition repaint (current id : value) (e : element) : element :=
  if strict_eq (getAttribute_id e) id then set_fill current e else e.

(** [componentClick] changes nothing but fill attributes. *)
Definition same_but_fill (e e' : element) : Prop :=
  flag_component e' = flag_component e ∧ attr_id e' = attr_id e ∧
  listeners e' = listeners e.

(** A document is loaded when each of its shapes carries a click listener. *)
Definition has_listener (e : element) : bool :=
  match listeners e with
  | [] => false
  | _ :: _ => true
  end.

Definition loaded (svg : list element) : bool :=
  forallb (fun e => implb (flag_component e) (has_listener e)) svg.

(** No swatch of the colour picker is clicked in a sequence of events. *)
Definition is_swatch_click (ev : event) : bool :=
  match ev with
  | PickSwatch _ => true
  | _ => false
  end.

Definition no_swatch_click (evs : list event) : bool :=
  forallb (fun ev => negb (is_swatch_click ev)) evs.

(** The fill attribute at position [j] of the injected document. *)
Definition fill_at (st : app_state) (j : nat) : option string :=
  match document_svg st with
  | Some svg => svg !! j ≫= attr_fill
  | None => None
  end.

(** What holds when the loop of [extractSvgData] has gone through the
    positions [p] of the document [svg]: the palette has lost one entry per
    group met, [usedGreys] holds the value popped for each id met, and each
    shape met carries that value and its listener. *)
Record extract_inv (svg : list element) (p : list nat) (st : extract_state) : Prop := {
  inv_grays :
    x_grays st = take (4 - length (first_seen (groups_at svg p))) grays;
  inv_used_seen : ∀ r s,
    first_seen (groups_at svg p) !! r = Some (ById s) →
    x_usedGreys st !! s = Some (popped r);
  inv_used_fresh : ∀ s,
    ById s ∉ first_seen (groups_at svg p) → x_usedGreys st !! s = None;
  inv_length : length (x_svg st) = length svg;
  inv_untouched : ∀ j, j ∉ p → x_svg st !! j = svg !! j;
  inv_done : ∀ j e0, j ∈ p → svg !! j = Some e0 →
    ∃ r, first_seen (groups_at svg p) !! r = Some (group_of j e0) ∧
         x_svg st !! j =
           Some (add_listener (listener_of j e0) (set_fill (popped r) e0))
}.

(** The element at position [i] has no id attribute. *)
Definition plain (svg : list element) (i : nat) : Prop :=
  attr_id <$> svg !! i = Some None.

#[export] Instance plain_dec (svg : list element) (i : nat) : Decision (plain svg i).
Proof. unfold plain. apply _. Defined.

(** What holds of [newFlagComponents] when the loop of [extractSvgData] has
    gone through the positions [p]: an entry records a shape met, with its
    id, under the property key of that id; and an entry recorded with a
    [null] id is the last shape without id attribute met. *)
Record components_inv (svg : list element) (p : list nat)
    (m : gmap string (list component)) : Prop := {
  inv_own : ∀ k cs c, m !! k = Some cs → c ∈ cs →
    ∃ e, svg !! c_el c = Some e ∧ c_id c = getAttribute_id e ∧
         k = property_key (c_id c);
  inv_null : ∀ cs c, m !! "null" = Some cs → c ∈ cs → c_id c = VNull →
    last (filter (plain svg) p) = Some (c_el c)
}.

(** What every state of the application satisfies: the ref of [Flag] and
    the state of [ColourPicker] agree with the colour of [App], and a
    listener sits on the shape it captured, with that shape's id. *)
Record app_inv (st : app_state) : Prop := {
  inv_ref : flag_selectedColorRef st = app_color st;
  inv_picked : picker_selectedColor st = app_color st;
  inv_listeners : ∀ svg i e l,
    document_svg st = Some svg → svg !! i = Some e → l ∈ listeners e →
    l_el l = i ∧ l_id l = getAttribute_id e
}.

(** ** Sample documents *)

Definition shape (id : option string) (fill : string) : element :=
  {| flag_component := true; attr_id := id; attr_fill := Some fill; listeners := [] |}.

(** Two stripes without ids. *)
Definition two_stripes : list element :=
  [shape None "#0057B7"; shape None "#FFD700"].

(** A field without id, a crescent drawn as two paths that share an id, and
    a star. *)
Definition crescent_flag : list element :=
  [shape None "#C8102E"; shape (Some "moon") "#FFFFFF";
   shape (Some "moon") "#FFFFFF"; shape (Some "star") "#FFFFFF"].


(** A field, a charge whose id is the text "constructor", and a star. *)
Definition constructor_flag : list element :=
  [shape (Some "field") "#0057B7"; shape (Some "constructor") "#FFD700";
   shape (Some "star") "#FFFFFF"].

(** ** Sample sessions *)

(** The crescent flag is injected and loaded, then a swatch is picked. *)
Definition load_then_pick (n : nat) : list event :=
  [Injected crescent_flag; LoadTimeout; PickSwatch n].

(** Another country is selected, its flag is injected and loaded, and a
    stripe is clicked; no swatch is picked. *)
Definition browse_without_picking : list event :=
  [SelectCountry "fr"; Injected two_stripes; LoadTimeout; ClickShape 0].

(** ** The flag generator's layout engine

    The generator script is not part of the sources at hand (they hold only
    its invocations in [generate_flags.sh] and its description in the
    README), so this part follows the specification's description of it. *)

Module Generator.

(** Modelled from the spec: the orientation of a stripe set and the
    alignment of a side inset, as the data model names them; the script
    [create_flag.py] is missing. *)
Inductive orientation : Type := Vertical | Horizontal.
Inductive alignment : Type := AlignLeft | AlignRight.

(** Modelled from the spec: the directive variants of the data model; the
    script [create_flag.py] that parses them is missing.  Numbers are exact
    rationals, as the decimal arguments of the command line denote them. *)
Inductive Directive : Type :=
| StripeSet (o : orientation) (ratios : list Q)
| Cross (armWidth armHeight thicknessA thicknessB : Q)
| Circle (cx cy radius : Q)
| Rect (x y w h : Q)
| Triangle (points : list (Q * Q))
| Canton (w h : Q)
| Side (width : Q) (count : nat) (a : alignment)
| Star (points : nat) (cx cy radius rotationDegrees : Q)
| Moon (cx cy outerRadius offsetX offsetY innerRadius : Q).

(** Modelled from the spec: the error kinds of section 7; the script that
    raises them is missing. *)
Inductive error : Type :=
| InvalidArgument
| UnsupportedDirective
| InsufficientColours
| WriteError.

Section Layout.

(** Modelled from the spec: the number of colours a directive claims ("as
    many colours as it has distinct fillable regions") and the number the
    canvas background claims before the first directive (the example of a
    lone star counts "star + background").  The specification fixes these
    counts only in part and the script [create_flag.py] that would fix them
    is missing, so both are parameters. *)
Variable regions : Directive -> nat.
Variable background : list Directive -> nat.

(** Modelled from the spec: the claim of the next [n] colours at a cursor
    into the colour list ("the next unclaimed colours", with
    [InsufficientColours] "when the colour list is exhausted before all
    claims are satisfied"); the layout code of [create_flag.py] is
    missing. *)
Definition claim (n : nat) (colours : list string) (cursor : nat)
    : error + (list string * nat) :=
  if decide (cursor + n ≤ length colours)
  then inr (take n (drop cursor colours), cursor + n)
  else inl InsufficientColours.

(** Modelled from the spec: the claims of the directives "strictly in the
    order given", each directive paired with the colours it claimed; the
    layout code of [create_flag.py] is missing. *)
Fixpoint layout_from (cursor : nat) (ds : list Directive) (colours : list string)
    : error + list (Directive * list string) :=
  match ds with
  | [] => inr []
  | d :: rest =>
      match claim (regions d) colours cursor with
      | inl e => inl e
      | inr (cs, cursor') =>
          match layout_from cursor' rest colours with
          | inl e => inl e
          | inr out => inr ((d, cs) :: out)
          end
      end
  end.

(** Modelled from the spec: the layout of a directive sequence, the
    background's colours first; the layout code of [create_flag.py] is
    missing. *)
Definition layout (ds : list Directive) (colours : list string)
    : error + (list string * list (Directive * list string)) :=
  match claim (background ds) colours 0 with
  | inl e => inl e
  | inr (bg, cursor) =>
      match layout_from cursor ds colours with
      | inl e => inl e
      | inr out => inr (bg, out)
      end
  end.

(** Modelled from the spec: "the total region count demanded by the
    directive sequence"; the layout code of [create_flag.py] is missing. *)
Definition demand (ds : list Directive) : nat :=
  background ds + sum_list (regions <$> ds).

End Layout.

(** *** Stripes *)

(** Modelled from the spec: a rectangle in canvas units, as a stripe
    segment is emitted; the stripe code of [create_flag.py] is missing. *)
Record rect : Type := MkRect { r_x : Q; r_y : Q; r_w : Q; r_h : Q }.

Definition Qsum (l : list Q) : Q := foldr Qplus 0%Q l.

(** Modelled from the spec: "segment width/height = canvas dimension ×
    ratio / sum(ratios)"; the stripe code of [create_flag.py] is missing. *)
Definition segment_size (dim : Q) (ratios : list Q) (ratio : Q) : Q :=
  (dim * ratio / Qsum ratios)%Q.

(** Modelled from the spec: the segments of a stripe set laid side by side
    from the offset [at_], each as long as its ratio commands and as wide as
    the canvas; the stripe code of [create_flag.py] is missing. *)
Fixpoint segments_from (o : orientation) (width height : Q) (all : list Q)
    (at_ : Q) (ratios : list Q) : list rect :=
  match ratios with
  | [] => []
  | ratio :: rest =>
      match o with
      | Vertical =>
          let w := segment_size width all ratio in
          {| r_x := at_; r_y := 0; r_w := w; r_h := height |}
            :: segments_from o width height all (at_ + w)%Q rest
      | Horizontal =>
          let h := segment_size height all ratio in
          {| r_x := 0; r_y := at_; r_w := width; r_h := h |}
            :: segments_from o width height all (at_ + h)%Q rest
      end
  end.

(** Modelled from the spec: the rectangles of a [StripeSet] directive on a
    canvas; the stripe code of [create_flag.py] is missing. *)
Definition stripes (width height : Q) (d : Directive) : list rect :=
  match d with
  | StripeSet o ratios => segments_from o width height ratios 0 ratios
  | _ => []
  end.

(** The extent of a segment along the orientation of its stripe set. *)
Definition extent (o : orientation) (s : rect) : Q :=
  match o with
  | Vertical => r_w s
  | Horizontal => r_h s
  end.

(** The offset of a segment along the orientation of its stripe set. *)
Definition offset (o : orientation) (s : rect) : Q :=
  match o with
  | Vertical => r_x s
  | Horizontal => r_y s
  end.

Definition canvas_dimension (o : orientation) (width height : Q) : Q :=
  match o with
  | Vertical => width
  | Horizontal => height
  end.

(** *** Stars *)

Section StarGeometry.

Local Open Scope R_scope.

(** Modelled from the spec: "the computed inner radius" of a star of
    [points] points and outer radius [r]; the specification does not give
    its formula and the star code of [create_flag.py] is missing, so it is
    a parameter. *)
Variable inner_radius : nat -> R -> R.

Definition radians (degrees : R) : R := degrees * PI / 180.

(** Modelled from the spec: the angle of the [k]-th vertex, "evenly spaced
    angles starting from rotationDegrees": the [2 * points] vertices share
    the full turn; the star code of [create_flag.py] is missing. *)
Definition vertex_angle (points : nat) (rotationDegrees : R) (k : nat) : R :=
  radians rotationDegrees + INR k * (PI / INR points).

(** Modelled from the spec: "alternating outer/inner radius", the outer
    one first; the star code of [create_flag.py] is missing. *)
Definition vertex_radius (points : nat) (r : R) (k : nat) : R :=
  if Nat.even k then r else inner_radius points r.

(** Modelled from the spec: the [k]-th vertex, at its radius and angle
    from the centre; the star code of [create_flag.py] is missing. *)
Definition star_vertex (points : nat) (cx cy r rotationDegrees : R) (k : nat)
    : R * R :=
  (cx + vertex_radius points r k * cos (vertex_angle points rotationDegrees k),
   cy + vertex_radius points r k * sin (vertex_angle points rotationDegrees k)).

(** Modelled from the spec: the single polygon of a [Star] directive; the
    star code of [create_flag.py] is missing. *)
Definition star_polygon (d : Directive) : list (R * R) :=
  match d with
  | Star points cx cy r rot =>
      star_vertex points (Q2R cx) (Q2R cy) (Q2R r) (Q2R rot) <$> seq 0 (2 * points)
  | _ => []
  end.

Definition distance (p q : R * R) : R :=
  sqrt ((fst p - fst q) * (fst p - fst q) + (snd p - snd q) * (snd p - snd q)).

End StarGeometry.

End Generator.

(** ** Further notions for the viewer *)

(** Two elements with the same class and the same id. *)
Definition same_identity (e e' : element) : Prop :=
  flag_component e' = flag_component e ∧ attr_id e' = attr_id e.

(** An element as the viewer may leave it: class and id as they were, and
    an element that is no shape wholly as it was. *)
Definition kept (e e' : element) : Prop :=
  same_identity e e' ∧ (flag_component e = false → e' = e).

(** The shape at position [i] has the id [s]. *)
Definition has_id (svg : list element) (s : string) (i : nat) : Prop :=
  attr_id <$> svg !! i = Some (Some s).

#[export] Instance has_id_dec (svg : list element) (s : string) (i : nat) :
  Decision (has_id svg s i).
Proof. unfold has_id. apply _. Defined.

(** The object that lines 46-57 of [extractSvgData] build for the element
    at position [i] of the document. *)
Definition recorded (svg : list element) (i : nat) : option component :=
  (fun e => {| c_el := i; c_id := getAttribute_id e; c_color := getAttribute_fill e |})
    <$> svg !! i.

(** The shapes with id [s], latest first, as recorded. *)
Definition entry_of (svg : list element) (s : string) : list component :=
  reverse (omap (recorded svg) (filter (has_id svg s) (querySelectorAll svg))).

(** The property key under which [extractSvgData] records the element at
    position [i]. *)
Definition key_at (svg : list element) (i : nat) : option string :=
  (fun e => property_key (getAttribute_id e)) <$> svg !! i.

(** Kinds of events. *)
Definition is_injection (ev : event) : bool :=
  match ev with
  | Injected _ => true
  | _ => false
  end.

Definition is_load (ev : event) : bool :=
  match ev with
  | LoadTimeout => true
  | _ => false
  end.

Definition is_shape_click (ev : event) : bool :=
  match ev with
  | ClickShape _ => true
  | _ => false
  end.

(** The country codes that a sequence of events selects, oldest first. *)
Definition selected_countries (evs : list event) : list string :=
  omap (fun ev => match ev with SelectCountry code => Some code | _ => None end) evs.

(** *** The render of [ColourPicker] (colorPicker.jsx, lines 108-124) *)

Record swatch_div : Type := SwatchDiv {
  className : string;
  backgroundColor : string;
  (** the argument that [onClick] gives to [setSelectedColor] *)
  onClick_color : value
}.

(** [colour(color)], lines 108-114. *)
Definition colour (selectedColor : value) (color : string) : swatch_div :=
  {| className :=
       String.append "colourPicker__colour "
         (if strict_eq (VString color) selectedColor then "selected" else EmptyString);
     backgroundColor := color;
     onClick_color := VString color |}.

(** The children of the [div] that [ColourPicker] returns, lines 116-124. *)
Definition ColourPicker_render (st : app_state) : list swatch_div :=
  colour (picker_selectedColor st) <$> swatches.

(** A swatch is drawn with the class [selected]. *)
Definition marked_selected (d : swatch_div) : bool :=
  String.eqb (className d) "colourPicker__colour selected".

(** *** The render of [Flag] (flag.jsx, lines 90-97) *)

(** The [hidden] attribute of the container and the [src] of [ReactSVG]. *)
Definition flag_hidden (st : app_state) : bool := flag_loading st.

Definition flag_src (st : app_state) : string :=
  String.append "flags/" (String.append (app_flag st) ".svg").

(** Listeners sit on shapes only. *)
Definition listeners_on_shapes (st : app_state) : Prop :=
  ∀ svg i e, document_svg st = Some svg → svg !! i = Some e →
    listeners e ≠ [] → flag_component e = true.

(** No two calls in a row have the same argument. *)
Definition no_repeat (calls : list value) : Prop :=
  ∀ i x y, calls !! i = Some x → calls !! S i = Some y → x ≠ y.

(** * Properties *)

(** ** Shapes of a document *)

Lemma elem_of_querySelectorAll_from (svg : list element) (start j : nat) :
  j ∈ querySelectorAll_from start svg ↔
  start ≤ j ∧ ∃ e, svg !! (j - start) = Some e ∧ flag_component e = true.
Proof.
  revert start. induction svg as [|e svg IH]; intros start; simpl.
  - split; [intros H; inversion H | intros (_ & e & H & _); discriminate].
  - assert (Hrest : j ∈ querySelectorAll_from (S start) svg ↔
              start < j ∧ ∃ e', (e :: svg) !! (j - start) = Some e' ∧ flag_component e' = true).
    { rewrite IH. split.
      - intros (Hle & e' & Hl & Hf). split; [lia|]. exists e'. split; [|done].
        replace (j - start) with (S (j - S start)) by lia. done.
      - intros (Hlt & e' & Hl & Hf). split; [lia|]. exists e'. split; [|done].
        replace (j - start) with (S (j - S start)) in Hl by lia. done. }
    destruct (flag_component e) eqn:Hfc.
    + rewrite elem_of_cons, Hrest. split.
      * intros [-> | (Hlt & He)].
        -- split; [lia|]. exists e. rewrite Nat.sub_diag. done.
        -- split; [lia | done].
      * intros (Hle & e' & Hl & Hf).
        destruct (decide (j = start)) as [-> | Hne]; [by left | right].
        split; [lia | eauto].
    + rewrite Hrest. split.
      * intros (Hlt & He). split; [lia | done].
      * intros (Hle & e' & Hl & Hf).
        destruct (decide (j = start)) as [-> | Hne].
        -- rewrite Nat.sub_diag in Hl. simpl in Hl. congruence.
        -- split; [lia | eauto].
Qed.

Lemma elem_of_querySelectorAll (svg : list element) (j : nat) :
  j ∈ querySelectorAll svg ↔ ∃ e, svg !! j = Some e ∧ flag_component e = true.
Proof.
  unfold querySelectorAll. rewrite elem_of_querySelectorAll_from.
  rewrite Nat.sub_0_r. split; [intros [_ H]; done | intros H; split; [lia | done]].
Qed.

Lemma querySelectorAll_from_NoDup (svg : list element) (start : nat) :
  NoDup (querySelectorAll_from start svg).
Proof.
  revert start. induction svg as [|e svg IH]; intros start; simpl.
  - constructor.
  - destruct (flag_component e); [|apply IH].
    constructor; [|apply IH].
    rewrite elem_of_querySelectorAll_from. lia.
Qed.

Lemma querySelectorAll_NoDup (svg : list element) : NoDup (querySelectorAll svg).
Proof. apply querySelectorAll_from_NoDup. Qed.

(** The shapes depend only on the class of the elements. *)
Lemma querySelectorAll_from_ext (svg svg' : list element) (start : nat) :
  flag_component <$> svg = flag_component <$> svg' →
  querySelectorAll_from start svg = querySelectorAll_from start svg'.
Proof.
  revert svg' start. induction svg as [|e svg IH]; intros [|e' svg'] start H;
    simpl in *; try done.
  injection H as He Hrest. rewrite He, (IH svg' (S start) Hrest). done.
Qed.

(** ** One pass of a handler over a document *)

Lemma foldl_fun_ext {A B} (f g : A → B → A) (a : A) (l : list B) :
  (∀ x y, f x y = g x y) → foldl f a l = foldl g a l.
Proof.
  intros H. revert a. induction l as [|y l IH]; intros a; [done|].
  cbn [foldl]. by rewrite H, IH.
Qed.

(** A pass that alters some positions with an idempotent function. *)
Lemma foldl_alter_lookup (h : element → element) (idxs : list nat)
    (svg : list element) (j : nat) :
  (∀ e, h (h e) = h e) →
  foldl (fun d i => alter h i d) svg idxs !! j =
  if decide (j ∈ idxs) then h <$> svg !! j else svg !! j.
Proof.
  intros Hidem. revert svg. induction idxs as [|i idxs IH]; intros svg.
  - case_decide as Hin; [by apply elem_of_nil in Hin | done].
  - cbn [foldl]. rewrite IH. destruct (decide (i = j)) as [-> | Hne].
    + rewrite list_lookup_alter_eq.
      rewrite (decide_True (P := j ∈ j :: idxs)) by apply list_elem_of_here.
      case_decide; [|done].
      destruct (svg !! j); simpl; [by rewrite Hidem | done].
    + rewrite list_lookup_alter_ne by done.
      destruct (decide (j ∈ idxs)), (decide (j ∈ i :: idxs));
        try done; exfalso; set_solver.
Qed.

Lemma repaint_idemp (current id : value) (e : element) :
  repaint current id (repaint current id e) = repaint current id e.
Proof.
  unfold repaint. destruct (strict_eq (getAttribute_id e) id) eqn:H; simpl.
  - unfold getAttribute_id in *. simpl. rewrite H. done.
  - rewrite H. done.
Qed.

Lemma click_each_alter (current id : value) (svg : list element) (i : nat) :
  click_each current id svg i = alter (repaint current id) i svg.
Proof.
  unfold click_each, repaint, setAttribute_fill.
  destruct (svg !! i) as [el|] eqn:Hi.
  - destruct (strict_eq (getAttribute_id el) id) eqn:Heq.
    + apply list_eq. intros j. rewrite !list_lookup_alter.
      destruct (decide (i = j)) as [-> |]; [|done].
      rewrite Hi. simpl. by rewrite Heq.
    + apply list_eq. intros j. rewrite list_lookup_alter.
      destruct (decide (i = j)) as [-> |]; [|done].
      rewrite Hi. simpl. by rewrite Heq.
  - apply list_eq. intros j. rewrite list_lookup_alter.
    destruct (decide (i = j)) as [-> |]; [|done]. by rewrite Hi.
Qed.

Lemma componentClick_group_lookup (current : value) (svg : list element)
    (component : nat) (id color : value) (j : nat) :
  truthy id = true →
  componentClick current svg component id color !! j =
  (fun e => if flag_component e then repaint current id e else e) <$> svg !! j.
Proof.
  intros Hid. unfold componentClick. rewrite Hid.
  rewrite (foldl_fun_ext _ (fun d i => alter (repaint current id) i d))
    by (intros; apply click_each_alter).
  rewrite foldl_alter_lookup by apply repaint_idemp.
  case_decide as Hin.
  - apply elem_of_querySelectorAll in Hin as (e & He & Hf).
    rewrite He. simpl. by rewrite Hf.
  - destruct (svg !! j) as [e|] eqn:Hj; [|done]. simpl.
    destruct (flag_component e) eqn:Hf; [|done].
    exfalso. apply Hin, elem_of_querySelectorAll. eauto.
Qed.

Lemma componentClick_alone_lookup (current : value) (svg : list element)
    (component : nat) (id color : value) (j : nat) :
  truthy id = false →
  componentClick current svg component id color !! j =
  if decide (component = j) then set_fill current <$> svg !! j else svg !! j.
Proof.
  intros Hid. unfold componentClick, setAttribute_fill. rewrite Hid.
  rewrite list_lookup_alter. by destruct (decide (component = j)) as [-> |].
Qed.

(** ** First occurrences *)

Section FirstSeen.
Context {A : Type} `{EqDecision A}.

Lemma first_seen_snoc (l : list A) (k : A) :
  first_seen (l ++ [k]) = add_seen (first_seen l) k.
Proof. unfold first_seen. by rewrite foldl_app. Qed.

Lemma add_seen_lookup (seen : list A) (k x : A) (r : nat) :
  seen !! r = Some x → add_seen seen k !! r = Some x.
Proof.
  intros H. unfold add_seen. case_decide; [done|].
  by apply lookup_app_l_Some.
Qed.

Lemma add_seen_elem (seen : list A) (k x : A) :
  x ∈ add_seen seen k ↔ x ∈ seen ∨ x = k.
Proof. unfold add_seen. case_decide; set_solver. Qed.

Lemma add_seen_NoDup (seen : list A) (k : A) :
  NoDup seen → NoDup (add_seen seen k).
Proof.
  intros H. unfold add_seen. case_decide; [done|].
  apply NoDup_app. split_and!; [done | set_solver | apply NoDup_singleton].
Qed.

Lemma first_seen_NoDup (l : list A) : NoDup (first_seen l).
Proof.
  induction l as [|k l IH] using rev_ind; [constructor|].
  rewrite first_seen_snoc. by apply add_seen_NoDup.
Qed.

Lemma elem_of_first_seen (l : list A) (x : A) : x ∈ first_seen l ↔ x ∈ l.
Proof.
  induction l as [|k l IH] using rev_ind; [done|].
  rewrite first_seen_snoc, add_seen_elem, IH. set_solver.
Qed.

End FirstSeen.

(** ** The palette *)

Lemma pop_grays (n : nat) :
  pop (take (4 - n) grays) = (popped n, take (4 - S n) grays).
Proof.
  destruct n as [|[|[|[|n]]]]; try reflexivity.
Qed.

Lemma popped_truthy (n : nat) : truthy (popped n) = true ↔ n < 4.
Proof.
  destruct n as [|[|[|[|n]]]]; cbn; split; intros; try done; lia.
Qed.

Lemma popped_undefined (n : nat) : popped n = VUndefined ↔ 4 ≤ n.
Proof.
  destruct n as [|[|[|[|n]]]]; cbn; split; intros; try done; lia.
Qed.



(** ** The loop of [extractSvgData] *)

Lemma extract_loop_snoc (svg : list element) (p : list nat) (i : nat) :
  extract_loop svg (p ++ [i]) = extract_each (extract_loop svg p) i.
Proof. unfold extract_loop. by rewrite foldl_app. Qed.

Lemma groups_at_snoc (svg : list element) (p : list nat) (i : nat) :
  groups_at svg (p ++ [i]) =
  groups_at svg p ++ from_option (fun e => [group_of i e]) [] (svg !! i).
Proof.
  unfold groups_at. rewrite omap_app. f_equal. simpl.
  by destruct (svg !! i).
Qed.

Lemma Alone_in_groups_at (svg : list element) (p : list nat) (j : nat) :
  Alone j ∈ groups_at svg p → j ∈ p.
Proof.
  unfold groups_at. rewrite list_elem_of_omap. intros (i & Hi & Hg).
  destruct (svg !! i) as [e|]; [|done]. simpl in Hg.
  unfold group_of in Hg. destruct (attr_id e) as [s|]; [destruct (String.eqb s EmptyString)|];
    simplify_eq; done.
Qed.

Lemma group_of_in_groups_at (svg : list element) (p : list nat) (j : nat) (e : element) :
  j ∈ p → svg !! j = Some e → group_of j e ∈ groups_at svg p.
Proof.
  intros Hj He. unfold groups_at. rewrite list_elem_of_omap.
  exists j. by rewrite He.
Qed.

Lemma extract_inv_init (svg : list element) :
  extract_inv svg [] (extract_init svg).
Proof.
  split.
  - done.
  - intros r s Hr. cbn in Hr. by rewrite lookup_nil in Hr.
  - intros s _. apply lookup_empty.
  - done.
  - done.
  - intros j e0 Hj. by apply elem_of_nil in Hj.
Qed.

Lemma truthy_id_group (i : nat) (e : element) :
  truthy (getAttribute_id e) = true →
  ∃ s, attr_id e = Some s ∧ group_of i e = ById s ∧ getAttribute_id e = VString s.
Proof.
  unfold getAttribute_id, group_of. destruct (attr_id e) as [s|]; simpl; [|done].
  destruct (String.eqb s EmptyString); [done|]. eauto.
Qed.

Lemma falsy_id_group (i : nat) (e : element) :
  truthy (getAttribute_id e) = false → group_of i e = Alone i.
Proof.
  unfold getAttribute_id, group_of. destruct (attr_id e) as [s|]; simpl; [|done].
  by destruct (String.eqb s EmptyString).
Qed.

Lemma inherits_truthy (id : value) :
  inherits (property_key id) = true → truthy id = true.
Proof.
  unfold inherits. intros H. apply bool_decide_eq_true in H.
  destruct id as [| |s]; simpl in *.
  - unfold inherited in H. set_solver.
  - unfold inherited in H. set_solver.
  - destruct (String.eqb s EmptyString) eqn:E; [|done].
    apply String.eqb_eq in E. subst s. unfold inherited in H. set_solver.
Qed.

Lemma record_component_safe (i : nat) (id color : value)
    (m : gmap string (list component)) :
  inherits (property_key id) = false →
  ∃ m', record_component i id color m = Some m' ∧
        (∀ k, is_Some (m' !! k) ↔ k = property_key id ∨ is_Some (m !! k)).
Proof.
  intros Hsafe. unfold record_component, get_property.
  destruct (truthy id); [destruct (m !! property_key id) as [old|] eqn:Hold|];
    rewrite ?Hsafe; eexists; (split; [reflexivity|]); intros k;
    rewrite lookup_insert_is_Some'; naive_solver.
Qed.

Lemma record_component_throws (i : nat) (id color : value)
    (m : gmap string (list component)) :
  keys_safe m → inherits (property_key id) = true →
  record_component i id color m = None.
Proof.
  intros Hkeys Hin. unfold record_component, get_property.
  rewrite (inherits_truthy id Hin).
  destruct (m !! property_key id) as [old|] eqn:Hold; [|by rewrite Hin].
  assert (inherits (property_key id) = false) by (apply Hkeys; eauto). congruence.
Qed.

Lemma assign_gray_safe (id : value) (gs : list string) (used : gmap string value) :
  inherits (property_key id) = false → is_Some (assign_gray id gs used).
Proof.
  intros Hsafe. unfold assign_gray, get_property.
  destruct (truthy id); [|by destruct (pop gs)].
  destruct (used !! property_key id) as [v|]; rewrite ?Hsafe.
  - destruct (negb (truthy v)); [by destruct (pop gs) | done].
  - by destruct (pop gs).
Qed.

(** Lines 59-71 are reached only with an id that names no inherited member:
    the case that [assign_gray] leaves without result never arises in the
    loop. *)
Lemma assign_gray_reached (i : nat) (id color : value)
    (m m' : gmap string (list component)) (gs : list string)
    (used : gmap string value) :
  keys_safe m → record_component i id color m = Some m' →
  inherits (property_key id) = false ∧ is_Some (assign_gray id gs used).
Proof.
  intros Hkeys Hm.
  destruct (inherits (property_key id)) eqn:Hin.
  - by rewrite (record_component_throws i id color m Hkeys Hin) in Hm.
  - split; [done | by apply assign_gray_safe].
Qed.

Lemma extract_each_run (st : extract_state) (i : nat) (el : element)
    (m : gmap string (list component)) (g : value) (gs : list string)
    (used : gmap string value) :
  x_thrown st = false → x_svg st !! i = Some el →
  record_component i (getAttribute_id el) (getAttribute_fill el)
    (x_newFlagComponents st) = Some m →
  assign_gray (getAttribute_id el) (x_grays st) (x_usedGreys st) = Some (g, gs, used) →
  extract_each st i =
  {| x_grays := gs; x_newFlagComponents := m; x_usedGreys := used;
     x_svg := alter (fun e => add_listener (listener_of i el) (set_fill g e)) i (x_svg st);
     x_thrown := false |}.
Proof.
  intros Hrun Hi Hm Ha. unfold extract_each. rewrite Hrun, Hi, Hm, Ha. f_equal.
  unfold addEventListener, setAttribute_fill. apply list_eq. intros j.
  destruct (decide (i = j)) as [-> | Hne].
  - rewrite !list_lookup_alter_eq. by destruct (x_svg st !! j).
  - by rewrite !list_lookup_alter_ne.
Qed.

Lemma extract_each_components (st : extract_state) (i : nat) (el : element) :
  x_thrown st = false → x_svg st !! i = Some el →
  inherits (property_key (getAttribute_id el)) = false →
  ∃ m, record_component i (getAttribute_id el) (getAttribute_fill el)
         (x_newFlagComponents st) = Some m ∧
       x_newFlagComponents (extract_each st i) = m.
Proof.
  intros Hrun Hi Hsafe.
  destruct (record_component_safe i (getAttribute_id el) (getAttribute_fill el)
              (x_newFlagComponents st) Hsafe) as (m & Hm & _).
  destruct (assign_gray_safe (getAttribute_id el) (x_grays st) (x_usedGreys st) Hsafe)
    as [[[g gs] used] Ha].
  exists m. split; [done|]. by rewrite (extract_each_run st i el m g gs used).
Qed.

Lemma extract_each_throws (st : extract_state) (i : nat) (el : element) :
  x_thrown st = false → x_svg st !! i = Some el →
  keys_safe (x_newFlagComponents st) →
  inherits (property_key (getAttribute_id el)) = true →
  extract_each st i = thrown st.
Proof.
  intros Hrun Hi Hkeys Hin. unfold extract_each.
  by rewrite Hrun, Hi, (record_component_throws _ _ _ _ Hkeys Hin).
Qed.

Lemma extract_each_thrown (st : extract_state) (i : nat) :
  x_thrown st = true → extract_each st i = st.
Proof. intros H. unfold extract_each. by rewrite H. Qed.

Lemma extract_each_absent (st : extract_state) (i : nat) :
  x_svg st !! i = None → extract_each st i = st.
Proof. intros H. unfold extract_each. rewrite H. by destruct (x_thrown st). Qed.

(** The choice of [assign_gray] for a shape whose id names no inherited
    member, when the groups [seen] have been met. *)
Lemma assign_gray_spec (svg : list element) (p : list nat) (st : extract_state)
    (i : nat) (e : element) :
  extract_inv svg p st → i ∉ p →
  inherits (property_key (getAttribute_id e)) = false →
  let seen := first_seen (groups_at svg p) in
  let seen' := add_seen seen (group_of i e) in
  ∃ r g gs used,
    assign_gray (getAttribute_id e) (x_grays st) (x_usedGreys st) = Some (g, gs, used) ∧
    seen' !! r = Some (group_of i e) ∧
    g = popped r ∧
    gs = take (4 - length seen') grays ∧
    (∀ r' s, seen' !! r' = Some (ById s) → used !! s = Some (popped r')) ∧
    (∀ s, ById s ∉ seen' → used !! s = None).
Proof.
  intros Hinv Hi Hsafe seen seen'. unfold assign_gray, get_property.
  destruct (truthy (getAttribute_id e)) eqn:Hid.
  - destruct (truthy_id_group i e Hid) as (s & Hs & Hg & Hv).
    rewrite Hv in *. unfold property_key in *. simpl in *.
    subst seen'. rewrite Hg. unfold add_seen.
    destruct (decide (ById s ∈ seen)) as [Hin | Hnin].
    + apply list_elem_of_lookup in Hin as [r Hr].
      pose proof (inv_used_seen _ _ _ Hinv r s Hr) as Hu. rewrite Hu.
      destruct (truthy (popped r)) eqn:Ht; simpl.
      * exists r. eexists _, _, _. split; [reflexivity|]. split_and!; try done.
        -- apply Hinv.
        -- apply Hinv.
        -- apply Hinv.
      * assert (4 ≤ r) as Hr4.
        { destruct (decide (r < 4)) as [Hlt|]; [|lia].
          apply popped_truthy in Hlt. congruence. }
        assert (4 ≤ length seen) as Hlen.
        { apply lookup_lt_Some in Hr. lia. }
        rewrite (inv_grays _ _ _ Hinv). fold seen.
        replace (4 - length seen) with 0 by lia. simpl.
        assert (popped r = VUndefined) as Hpr by (by apply popped_undefined).
        exists r. eexists _, _, _. split; [reflexivity|]. split_and!; try done.
        -- intros r' s' Hr'. destruct (decide (s = s')) as [<- |].
           ++ rewrite lookup_insert_eq.
              assert (r' = r) as ->; [|by rewrite Hpr].
              eapply (NoDup_lookup seen); [apply first_seen_NoDup | exact Hr' | exact Hr].
           ++ rewrite lookup_insert_ne by done. by apply (inv_used_seen _ _ _ Hinv).
        -- intros s' Hs'. rewrite lookup_insert_ne.
           ++ by apply (inv_used_fresh _ _ _ Hinv).
           ++ intros ->. apply Hs'. apply list_elem_of_lookup. eauto.
    + rewrite (inv_used_fresh _ _ _ Hinv s Hnin), Hsafe.
      rewrite (inv_grays _ _ _ Hinv). fold seen. rewrite pop_grays.
      exists (length seen). eexists _, _, _. split; [reflexivity|]. split_and!.
      * by rewrite lookup_app_r, Nat.sub_diag.
      * done.
      * rewrite length_app. simpl. f_equal. lia.
      * intros r' s' Hr'. destruct (decide (s = s')) as [<- |].
        -- rewrite lookup_insert_eq. f_equal. f_equal.
           destruct (decide (r' < length seen)) as [Hlt|Hge].
           ++ rewrite lookup_app_l in Hr' by done. exfalso. apply Hnin.
              apply list_elem_of_lookup. eauto.
           ++ apply lookup_lt_Some in Hr'. rewrite length_app in Hr'. simpl in Hr'. lia.
        -- rewrite lookup_insert_ne by done.
           apply (inv_used_seen _ _ _ Hinv). fold seen.
           destruct (decide (r' < length seen)) as [Hlt|Hge].
           ++ by rewrite lookup_app_l in Hr'.
           ++ rewrite lookup_app_r in Hr' by lia.
              destruct (r' - length seen); simpl in Hr'; [congruence | done].
      * intros s' Hs'. rewrite lookup_insert_ne.
        -- apply (inv_used_fresh _ _ _ Hinv). set_solver.
        -- intros ->. set_solver.
  - pose proof (falsy_id_group i e Hid) as Hg.
    subst seen'. rewrite Hg. unfold add_seen.
    assert (Alone i ∉ seen) as Hnin.
    { intros Hin. apply elem_of_first_seen, Alone_in_groups_at in Hin. done. }
    rewrite decide_False by done.
    rewrite (inv_grays _ _ _ Hinv). fold seen. rewrite pop_grays.
    exists (length seen). eexists _, _, _. split; [reflexivity|]. split_and!.
    + by rewrite lookup_app_r, Nat.sub_diag.
    + done.
    + rewrite length_app. simpl. f_equal. lia.
    + intros r' s' Hr'. apply (inv_used_seen _ _ _ Hinv). fold seen.
      destruct (decide (r' < length seen)) as [Hlt|Hge].
      * by rewrite lookup_app_l in Hr'.
      * rewrite lookup_app_r in Hr' by lia.
        destruct (r' - length seen); simpl in Hr'; [congruence | done].
    + intros s' Hs'. apply (inv_used_fresh _ _ _ Hinv). set_solver.
Qed.

Lemma extract_inv_step (svg : list element) (p : list nat) (st : extract_state) (i : nat) :
  extract_inv svg p st → x_thrown st = false → i ∉ p → safe_at svg i →
  extract_inv svg (p ++ [i]) (extract_each st i) ∧
  x_thrown (extract_each st i) = false.
Proof.
  intros Hinv Hrun Hi Hsafe.
  pose proof (inv_untouched _ _ _ Hinv i Hi) as Hcur.
  pose proof (groups_at_snoc svg p i) as Hgroups.
  destruct (svg !! i) as [e|] eqn:He; simpl in Hgroups.
  - assert (first_seen (groups_at svg (p ++ [i]))
            = add_seen (first_seen (groups_at svg p)) (group_of i e)) as Hfs.
    { by rewrite Hgroups, first_seen_snoc. }
    specialize (Hsafe e He).
    destruct (assign_gray_spec svg p st i e Hinv Hi Hsafe)
      as (r & g & gs & used & Ha & Hr & -> & -> & Hseen & Hfresh).
    destruct (record_component_safe i (getAttribute_id e) (getAttribute_fill e)
                (x_newFlagComponents st) Hsafe) as (m & Hm & _).
    rewrite (extract_each_run st i e m _ _ _ Hrun Hcur Hm Ha).
    split; [|done]. split; simpl.
    + by rewrite Hfs.
    + intros r' s Hr'. apply Hseen. by rewrite <- Hfs.
    + intros s Hs. apply Hfresh. by rewrite <- Hfs.
    + rewrite length_alter. apply Hinv.
    + intros j Hj. rewrite list_lookup_alter_ne by set_solver.
      apply Hinv. set_solver.
    + intros j e0 Hj He0. rewrite Hfs.
      destruct (decide (i = j)) as [<- | Hne].
      * rewrite He in He0. injection He0 as <-.
        exists r. split; [done|].
        by rewrite list_lookup_alter_eq, Hcur.
      * assert (j ∈ p) as Hjp by set_solver.
        destruct (inv_done _ _ _ Hinv j e0 Hjp He0) as (r0 & Hr0 & Hsvg0).
        exists r0. split; [by apply add_seen_lookup|].
        by rewrite list_lookup_alter_ne.
  - rewrite app_nil_r in Hgroups.
    rewrite (extract_each_absent st i Hcur). split; [|done].
    split; rewrite ?Hgroups; try apply Hinv.
    + intros j Hj. apply Hinv. set_solver.
    + intros j e0 Hj He0. apply Hinv; [|done].
      apply elem_of_app in Hj as [Hj | Hj]; [done|].
      apply list_elem_of_singleton in Hj as ->. congruence.
Qed.

Lemma extract_inv_thrown (svg : list element) (p : list nat) (st : extract_state) :
  extract_inv svg p st → extract_inv svg p (thrown st).
Proof. intros [? ? ? ? ? ?]. by split. Qed.

(** How far the loop gets: it goes through the positions up to the first
    whose id names an inherited member, where it throws, or through all. *)
Lemma extract_loop_reach (svg : list element) (p : list nat) :
  NoDup p →
  ∃ q, q `prefix_of` p ∧ Forall (safe_at svg) q ∧
       extract_inv svg q (extract_loop svg p) ∧
       keys_safe (x_newFlagComponents (extract_loop svg p)) ∧
       (x_thrown (extract_loop svg p) = false → q = p) ∧
       (x_thrown (extract_loop svg p) = true →
          ∃ i rest, p = q ++ i :: rest ∧ ¬ safe_at svg i).
Proof.
  induction p as [|i p IH] using rev_ind; intros Hnd.
  - exists []. split_and!; try done.
    + apply extract_inv_init.
    + intros k [cs Hk]. cbn in Hk. by rewrite lookup_empty in Hk.
  - apply NoDup_app in Hnd as (Hp & Hdisj & _).
    assert (i ∉ p) as Hi.
    { intros Hin. apply (Hdisj i Hin). apply list_elem_of_here. }
    destruct (IH Hp) as (q & Hpre & Hsafe & Hinv & Hkeys & Hrun & Hthrown).
    rewrite extract_loop_snoc. set (st := extract_loop svg p) in *.
    destruct (x_thrown st) eqn:Ht.
    + rewrite (extract_each_thrown st i Ht). exists q.
      split_and!; try done.
      * by apply prefix_app_r.
      * rewrite Ht. done.
      * intros _. destruct (Hthrown eq_refl) as (i0 & rest & -> & Hunsafe).
        exists i0, (rest ++ [i]). split; [|done]. by rewrite <- app_assoc.
    + specialize (Hrun eq_refl). subst q.
      pose proof (inv_untouched _ _ _ Hinv i Hi) as Hcur.
      destruct (decide (safe_at svg i)) as [Hsi | Hunsafe].
      * destruct (extract_inv_step svg p st i Hinv Ht Hi Hsi) as [Hinv' Hrun'].
        exists (p ++ [i]). split_and!; try done.
        -- apply Forall_app. split; [done | by constructor].
        -- destruct (svg !! i) as [e|] eqn:He.
           ++ destruct (extract_each_components st i e Ht Hcur (Hsi e He))
                as (m & Hm & ->).
              destruct (record_component_safe i (getAttribute_id e) (getAttribute_fill e)
                          (x_newFlagComponents st) (Hsi e He)) as (m' & Hm' & Hdom).
              rewrite Hm in Hm'. injection Hm' as <-.
              intros k Hk. apply Hdom in Hk as [-> | Hk]; [by apply Hsi | by apply Hkeys].
           ++ by rewrite (extract_each_absent st i Hcur).
        -- rewrite Hrun'. done.
      * assert (∃ e, svg !! i = Some e ∧
                     inherits (property_key (getAttribute_id e)) = true)
          as (e & He & Hin).
        { unfold safe_at in Hunsafe. destruct (svg !! i) as [e|] eqn:He.
          - exists e. split; [done|].
            destruct (inherits _) eqn:E; [done|]. exfalso. apply Hunsafe.
            by intros e' [= <-].
          - exfalso. apply Hunsafe. intros e H. discriminate. }
        rewrite He in Hcur.
        rewrite (extract_each_throws st i e Ht Hcur Hkeys Hin).
        exists p. split_and!; try done.
        -- by apply prefix_app_r.
        -- by apply extract_inv_thrown.
        -- intros _. exists i, []. done.
Qed.

Lemma extract_loop_inv (svg : list element) (p : list nat) :
  NoDup p → Forall (safe_at svg) p →
  extract_inv svg p (extract_loop svg p).
Proof.
  intros Hnd Hsafe.
  destruct (extract_loop_reach svg p Hnd) as (q & _ & _ & Hinv & _ & Hrun & Hthrown).
  destruct (x_thrown (extract_loop svg p)) eqn:Ht.
  - destruct (Hthrown eq_refl) as (i & rest & -> & Hunsafe). exfalso.
    apply Hunsafe. rewrite Forall_forall in Hsafe. apply Hsafe. set_solver.
  - specialize (Hrun eq_refl). by subst q.
Qed.

Lemma extract_loop_running (svg : list element) (p : list nat) :
  NoDup p → Forall (safe_at svg) p → x_thrown (extract_loop svg p) = false.
Proof.
  intros Hnd Hsafe.
  destruct (extract_loop_reach svg p Hnd) as (q & _ & _ & _ & _ & _ & Hthrown).
  destruct (x_thrown (extract_loop svg p)) eqn:Ht; [|done].
  destruct (Hthrown eq_refl) as (i & rest & -> & Hunsafe). exfalso.
  apply Hunsafe. rewrite Forall_forall in Hsafe. apply Hsafe. set_solver.
Qed.

Lemma ids_safe_at (svg : list element) (j : nat) :
  ids_safe svg = true → j ∈ querySelectorAll svg → safe_at svg j.
Proof.
  intros Hsafe Hj e He. apply elem_of_querySelectorAll in Hj as (e' & He' & Hf).
  rewrite He in He'. injection He' as <-.
  unfold ids_safe in Hsafe. rewrite forallb_forall in Hsafe.
  assert (In e svg) as Hin by (apply list_elem_of_In, list_elem_of_lookup; eauto).
  specialize (Hsafe e Hin). unfold safe_element in Hsafe. rewrite Hf in Hsafe.
  simpl in Hsafe. by apply negb_true_iff in Hsafe.
Qed.

Lemma ids_safe_shapes (svg : list element) :
  ids_safe svg = true → Forall (safe_at svg) (querySelectorAll svg).
Proof. intros H. apply Forall_forall. intros j Hj. by apply ids_safe_at. Qed.


Lemma extractSvgData_inv (svg : list element) :
  ids_safe svg = true →
  extract_inv svg (querySelectorAll svg) (extractSvgData svg).
Proof.
  intros H. apply extract_loop_inv; [apply querySelectorAll_NoDup | by apply ids_safe_shapes].
Qed.

Lemma extractSvgData_running (svg : list element) :
  ids_safe svg = true → x_thrown (extractSvgData svg) = false.
Proof.
  intros H. apply extract_loop_running; [apply querySelectorAll_NoDup | by apply ids_safe_shapes].
Qed.

(** What [extractSvgData] leaves at every position of a document whose ids
    name no inherited member. *)
Lemma extractSvgData_shape (svg : list element) (j : nat) (e0 : element) :
  ids_safe svg = true → svg !! j = Some e0 → flag_component e0 = true →
  ∃ r, shape_groups svg !! r = Some (group_of j e0) ∧
       x_svg (extractSvgData svg) !! j =
         Some (add_listener (listener_of j e0) (set_fill (popped r) e0)).
Proof.
  intros Hsafe Hj Hf.
  apply (inv_done _ _ _ (extractSvgData_inv svg Hsafe)); [|done].
  apply elem_of_querySelectorAll. eauto.
Qed.

(** What [extractSvgData] leaves at a position of any document: the element
    as it was, or the shape with a popped value as fill and its listener. *)
Lemma extractSvgData_cases (svg : list element) (j : nat) (e0 : element) :
  svg !! j = Some e0 →
  x_svg (extractSvgData svg) !! j = Some e0 ∨
  (flag_component e0 = true ∧
   ∃ r, x_svg (extractSvgData svg) !! j =
          Some (add_listener (listener_of j e0) (set_fill (popped r) e0))).
Proof.
  intros Hj.
  destruct (extract_loop_reach svg _ (querySelectorAll_NoDup svg))
    as (q & Hpre & _ & Hinv & _). fold (extractSvgData svg) in Hinv.
  destruct (decide (j ∈ q)) as [Hin | Hnin].
  - right. destruct (inv_done _ _ _ Hinv j e0 Hin Hj) as (r & _ & Hr).
    split; [|eauto].
    assert (j ∈ querySelectorAll svg) as Hq.
    { destruct Hpre as [rest ->]. set_solver. }
    apply elem_of_querySelectorAll in Hq as (e & He & Hf). congruence.
  - left. by rewrite (inv_untouched _ _ _ Hinv j Hnin).
Qed.

Lemma extractSvgData_other (svg : list element) (j : nat) (e0 : element) :
  svg !! j = Some e0 → flag_component e0 = false →
  x_svg (extractSvgData svg) !! j = Some e0.
Proof.
  intros Hj Hf. destruct (extractSvgData_cases svg j e0 Hj) as [H | [Hf' _]]; [done|].
  congruence.
Qed.

Lemma extractSvgData_length (svg : list element) :
  length (x_svg (extractSvgData svg)) = length svg.
Proof.
  destruct (extract_loop_reach svg _ (querySelectorAll_NoDup svg))
    as (q & _ & _ & Hinv & _).
  apply (inv_length _ _ _ Hinv).
Qed.

Lemma placeholder_shape (svg : list element) (j : nat) (e : element) :
  ids_safe svg = true → svg !! j = Some e → flag_component e = true →
  ∃ r, shape_groups svg !! r = Some (group_of j e) ∧
       placeholder svg j = Some (to_DOMString (popped r)).
Proof.
  intros Hsafe Hj Hf.
  destruct (extractSvgData_shape svg j e Hsafe Hj Hf) as (r & Hr & Hsvg).
  exists r. split; [done|]. unfold placeholder. by rewrite Hsvg.
Qed.





(** ** C3 *)


(** ** C8 *)


(** ** Clicks *)

Lemma componentClick_lookup (current : value) (svg : list element)
    (component : nat) (id color : value) (j : nat) :
  componentClick current svg component id color !! j =
  (fun e =>
     if truthy id
     then (if flag_component e then repaint current id e else e)
     else (if decide (component = j) then set_fill current e else e)) <$> svg !! j.
Proof.
  destruct (truthy id) eqn:Hid.
  - by rewrite componentClick_group_lookup.
  - rewrite componentClick_alone_lookup by done.
    case_decide; [done|]. by destruct (svg !! j).
Qed.

Lemma componentClick_idemp (current : value) (svg : list element)
    (component : nat) (id color color' : value) :
  componentClick current (componentClick current svg component id color)
    component id color' =
  componentClick current svg component id color.
Proof.
  apply list_eq. intros j. rewrite !componentClick_lookup.
  destruct (svg !! j) as [e|]; [|done]. simpl. f_equal.
  destruct (truthy id).
  - destruct (flag_component e) eqn:Hf.
    + assert (flag_component (repaint current id e) = true) as ->.
      { unfold repaint. by destruct (strict_eq _ _). }
      apply repaint_idemp.
    + by rewrite Hf.
  - by case_decide.
Qed.

Lemma componentClick_color (current : value) (svg : list element)
    (component : nat) (id color color' : value) :
  componentClick current svg component id color =
  componentClick current svg component id color'.
Proof. done. Qed.

(** The listeners of one shape all make the same call, so running them all
    is running one. *)
Lemma run_listeners (current : value) (svg : list element) (i : nat) (id : value)
    (ls : list listener) :
  ls ≠ [] →
  (∀ l, l ∈ ls → l_el l = i ∧ l_id l = id) →
  foldl (fun d l => componentClick current d (l_el l) (l_id l) (l_color l)) svg ls =
  componentClick current svg i id VNull.
Proof.
  intros Hne Hall. destruct ls as [|l0 ls]; [done|]. clear Hne.
  cbn [foldl]. destruct (Hall l0 (list_elem_of_here _ _)) as [<- <-].
  rewrite (componentClick_color _ _ _ _ _ VNull).
  assert (Hrest : ∀ l, l ∈ ls → l_el l = l_el l0 ∧ l_id l = l_id l0).
  { intros l Hl. apply Hall. by apply list_elem_of_further. }
  clear Hall. induction ls as [|l ls IH]; [done|].
  cbn [foldl]. destruct (Hrest l (list_elem_of_here _ _)) as [-> ->].
  rewrite componentClick_idemp. apply IH.
  intros l' Hl'. apply Hrest. by apply list_elem_of_further.
Qed.

Lemma has_listener_nonempty (e : element) :
  has_listener e = true → listeners e ≠ [].
Proof. unfold has_listener. by destruct (listeners e). Qed.

Lemma loaded_lookup (svg : list element) (i : nat) (e : element) :
  loaded svg = true → svg !! i = Some e → flag_component e = true →
  listeners e ≠ [].
Proof.
  intros Hl Hi Hf. unfold loaded in Hl. rewrite forallb_forall in Hl.
  apply has_listener_nonempty.
  assert (In e svg) as Hin by (apply list_elem_of_In, list_elem_of_lookup; eauto).
  specialize (Hl e Hin). by rewrite Hf in Hl.
Qed.

(** A click on a loaded shape is one call of [componentClick] with the
    shape's position and id and the current value of the ref. *)
Lemma dispatch_click_loaded (st : app_state) (svg : list element) (i : nat) (e : element) :
  app_inv st → document_svg st = Some svg → loaded svg = true →
  svg !! i = Some e → flag_component e = true →
  document_svg (dispatch_click i st) =
  Some (componentClick (app_color st) svg i (getAttribute_id e) VNull).
Proof.
  intros Hinv Hsvg Hl Hi Hf. unfold dispatch_click. rewrite Hsvg, Hi. simpl.
  rewrite (inv_ref _ Hinv). f_equal. apply run_listeners.
  - by eapply loaded_lookup.
  - intros l Hin. by eapply (inv_listeners _ Hinv).
Qed.

(** ** The invariant of the application *)

Lemma app_inv_mount : app_inv mount.
Proof. split; [done | done | intros svg i e l H; discriminate]. Qed.

Lemma app_inv_setSelectedColor (c : value) (st : app_state) :
  app_inv st → app_inv (setSelectedColor c st).
Proof.
  intros [Href Hpick Hls]. unfold setSelectedColor.
  case_decide; [by split|].
  unfold picker_effect, selectColor, setColor. simpl.
  case_decide; (split; [done | done | exact Hls]).
Qed.

Lemma app_inv_setFlag (code : string) (st : app_state) :
  app_inv st → app_inv (setFlag code st).
Proof.
  intros [Href Hpick Hls]. unfold setFlag. case_decide; by split.
Qed.

Lemma app_inv_injected (doc : list element) (st : app_state) :
  app_inv st → app_inv (with_svg (Some (injected <$> doc)) st).
Proof.
  intros [Href Hpick Hls]. split; [done | done |].
  simpl. intros svg i e l [= <-] Hi Hl.
  rewrite list_lookup_fmap in Hi. destruct (doc !! i); [|done].
  injection Hi as <-. simpl in Hl. by apply elem_of_nil in Hl.
Qed.

Lemma loadFlag_timeout_svg (st : app_state) (svg : list element) :
  document_svg st = Some svg →
  document_svg (loadFlag_timeout st) = Some (x_svg (extractSvgData svg)).
Proof.
  intros Hsvg. unfold loadFlag_timeout. rewrite Hsvg.
  by destruct (x_thrown (extractSvgData svg)).
Qed.

Lemma loadFlag_timeout_frame (st : app_state) :
  app_flag (loadFlag_timeout st) = app_flag st ∧
  app_color (loadFlag_timeout st) = app_color st ∧
  picker_selectedColor (loadFlag_timeout st) = picker_selectedColor st ∧
  flag_selectedColorRef (loadFlag_timeout st) = flag_selectedColorRef st ∧
  selectColor_calls (loadFlag_timeout st) = selectColor_calls st.
Proof.
  unfold loadFlag_timeout. destruct (document_svg st) as [svg|]; [|done].
  by destruct (x_thrown (extractSvgData svg)).
Qed.

Lemma app_inv_loadFlag_timeout (st : app_state) :
  app_inv st → app_inv (loadFlag_timeout st).
Proof.
  intros Hinv.
  destruct (document_svg st) as [svg0|] eqn:Hsvg;
    [|unfold loadFlag_timeout; by rewrite Hsvg].
  destruct Hinv as [Href Hpick Hls].
  destruct (loadFlag_timeout_frame st) as (_ & Hc & Hp & Hr & _).
  split; [congruence | congruence |].
  intros svg i e l Hd Hi Hl.
  rewrite (loadFlag_timeout_svg st svg0 Hsvg) in Hd. injection Hd as <-.
  destruct (svg0 !! i) as [e0|] eqn:Hi0.
  - destruct (extractSvgData_cases svg0 i e0 Hi0) as [He | (Hf & r & He)];
      rewrite He in Hi; injection Hi as <-.
    + by apply (Hls svg0 i e0 l).
    + simpl in Hl. apply elem_of_app in Hl as [Hl | Hl].
      * by apply (Hls svg0 i e0 l).
      * by apply list_elem_of_singleton in Hl as ->.
  - apply lookup_lt_Some in Hi. rewrite extractSvgData_length in Hi.
    apply lookup_ge_None in Hi0. lia.
Qed.

Lemma componentClick_same_but_fill (current : value) (svg : list element)
    (component : nat) (id color : value) (j : nat) (e' : element) :
  componentClick current svg component id color !! j = Some e' →
  ∃ e, svg !! j = Some e ∧ same_but_fill e e'.
Proof.
  rewrite componentClick_lookup. destruct (svg !! j) as [e|]; [|done].
  simpl. intros [= <-]. exists e. split; [done|].
  unfold same_but_fill, repaint. destruct (truthy id).
  - destruct (flag_component e) eqn:Hf; [|done].
    destruct (strict_eq _ _); simpl; by rewrite ?Hf.
  - by case_decide.
Qed.

Lemma run_listeners_same_but_fill (current : value) (ls : list listener)
    (svg : list element) (j : nat) (e' : element) :
  foldl (fun d l => componentClick current d (l_el l) (l_id l) (l_color l)) svg ls
    !! j = Some e' →
  ∃ e, svg !! j = Some e ∧ same_but_fill e e'.
Proof.
  revert svg. induction ls as [|l ls IH]; intros svg Hj.
  - exists e'. by split.
  - cbn [foldl] in Hj. apply IH in Hj as (e1 & H1 & (Ha & Hb & Hc)).
    apply componentClick_same_but_fill in H1 as (e & He & (Ha' & Hb' & Hc')).
    exists e. split; [done|]. unfold same_but_fill. split_and!; congruence.
Qed.

Lemma app_inv_dispatch_click (i : nat) (st : app_state) :
  app_inv st → app_inv (dispatch_click i st).
Proof.
  intros Hinv. unfold dispatch_click.
  destruct (document_svg st) as [svg0|] eqn:Hsvg; [|done].
  destruct (svg0 !! i) as [e0|] eqn:Hi0; [|done].
  destruct Hinv as [Href Hpick Hls].
  split; [done | done |]. simpl. intros svg j e l [= <-] Hj Hl.
  apply run_listeners_same_but_fill in Hj as (e1 & He1 & (Ha & Hb & Hc)).
  unfold getAttribute_id. rewrite Hb. rewrite Hc in Hl.
  by apply (Hls svg0 j e1 l).
Qed.

Lemma app_inv_step (st : app_state) (ev : event) :
  app_inv st → app_inv (step st ev).
Proof.
  intros Hinv. destruct ev as [n|code|doc| |i]; simpl.
  - destruct (swatches !! n); [by apply app_inv_setSelectedColor | done].
  - by apply app_inv_setFlag.
  - by apply app_inv_injected.
  - by apply app_inv_loadFlag_timeout.
  - by apply app_inv_dispatch_click.
Qed.

Lemma app_inv_run (evs : list event) : app_inv (run evs).
Proof.
  unfold run. induction evs as [|ev evs IH] using rev_ind.
  - apply app_inv_mount.
  - rewrite foldl_app. by apply app_inv_step.
Qed.

(** [extractSvgData] leaves a loaded document. *)
Lemma extractSvgData_loaded (svg : list element) :
  ids_safe svg = true → loaded (x_svg (extractSvgData svg)) = true.
Proof.
  intros Hsafe. unfold loaded. apply forallb_forall. intros e' Hin.
  apply list_elem_of_In, list_elem_of_lookup in Hin as [j Hj].
  destruct (svg !! j) as [e0|] eqn:Hj0.
  - destruct (flag_component e0) eqn:Hf.
    + destruct (extractSvgData_shape svg j e0 Hsafe Hj0 Hf) as (r & _ & He).
      rewrite He in Hj. injection Hj as <-. simpl. rewrite Hf. simpl.
      unfold has_listener. simpl. by destruct (listeners e0).
    + rewrite (extractSvgData_other svg j e0 Hj0 Hf) in Hj. injection Hj as <-.
      by rewrite Hf.
  - apply lookup_lt_Some in Hj. rewrite extractSvgData_length in Hj.
    apply lookup_ge_None in Hj0. lia.
Qed.

(** ** C1 *)

(** C1. In every state the application reaches, when the document is loaded
    and the user clicks a shape with a non-empty id, every shape with that
    id has its fill attribute set to the colour selected at that moment:
    the colour of [App], which is also the selection of [ColourPicker],
    whatever colour was selected when the document was loaded. *)
Theorem click_repaints_identity_group (evs : list event) (svg : list element)
    (i : nat) (e : element) (s : string) :
  document_svg (run evs) = Some svg → loaded svg = true →
  svg !! i = Some e → flag_component e = true →
  attr_id e = Some s → s ≠ EmptyString →
  app_color (run evs) = picker_selectedColor (run evs) ∧
  ∀ j ej, svg !! j = Some ej → flag_component ej = true → attr_id ej = Some s →
    fill_at (step (run evs) (ClickShape i)) j
    = Some (to_DOMString (app_color (run evs))).
Proof.
  intros Hsvg Hl Hi Hf Hid Hs.
  pose proof (app_inv_run evs) as Hinv.
  split; [symmetry; apply Hinv|].
  intros j ej Hj Hfj Hidj. unfold fill_at. simpl.
  rewrite (dispatch_click_loaded _ svg i e Hinv Hsvg Hl Hi Hf).
  rewrite componentClick_group_lookup.
  - rewrite Hj. simpl. rewrite Hfj. unfold repaint, getAttribute_id, strict_eq.
    rewrite Hidj, Hid. simpl. by rewrite bool_decide_eq_true_2.
  - unfold getAttribute_id. rewrite Hid. simpl.
    destruct (String.eqb s EmptyString) eqn:E; [|done].
    by apply String.eqb_eq in E.
Qed.

(** The document is loaded while the selection is still [null]; the user
    then picks the third swatch and clicks one path of the crescent: both
    paths take the swatch's colour. *)
Lemma click_repaints_identity_group_witness :
  fill_at (step (run (load_then_pick 2)) (ClickShape 1)) 1 = Some "#C8102E" ∧
  fill_at (step (run (load_then_pick 2)) (ClickShape 1)) 2 = Some "#C8102E" ∧
  app_color (run [Injected crescent_flag; LoadTimeout]) = VNull.
Proof.
  set (evs := load_then_pick 2).
  assert (H : app_color (run evs) = picker_selectedColor (run evs) ∧
    ∀ j ej, x_svg (extractSvgData crescent_flag) !! j = Some ej →
      flag_component ej = true → attr_id ej = Some "moon" →
      fill_at (step (run evs) (ClickShape 1)) j
      = Some (to_DOMString (app_color (run evs)))).
  { eapply (click_repaints_identity_group evs _ 1 _ "moon");
      [reflexivity | reflexivity | reflexivity | reflexivity | reflexivity | discriminate]. }
  destruct H as [_ H]. split_and!.
  - eapply (H 1); reflexivity.
  - eapply (H 2); reflexivity.
  - reflexivity.
Defined.

(** ** C9 *)

(** C9. In every state the application reaches, when the document is loaded
    and the user clicks a shape without id attribute, the fill attribute of
    that shape is set to the selected colour, the fill attribute of every
    other element is the one it had before the click, the clicked shape
    keeps its class, its id and its listeners, and every other element of
    the document is left as it was. *)
Theorem click_without_identity_repaints_one (evs : list event) (svg : list element)
    (i : nat) (e : element) :
  document_svg (run evs) = Some svg → loaded svg = true →
  svg !! i = Some e → flag_component e = true → attr_id e = None →
  fill_at (step (run evs) (ClickShape i)) i
    = Some (to_DOMString (app_color (run evs))) ∧
  (∀ j, j ≠ i → fill_at (step (run evs) (ClickShape i)) j = fill_at (run evs) j) ∧
  ∃ svg', document_svg (step (run evs) (ClickShape i)) = Some svg' ∧
          (∃ e', svg' !! i = Some e' ∧
                 attr_fill e' = Some (to_DOMString (app_color (run evs))) ∧
                 same_but_fill e e') ∧
          svg' !! i = Some (set_fill (app_color (run evs)) e) ∧
          ∀ j, j ≠ i → svg' !! j = svg !! j.
Proof.
  intros Hsvg Hl Hi Hf Hid.
  pose proof (app_inv_run evs) as Hinv.
  assert (truthy (getAttribute_id e) = false) as Hfalsy.
  { unfold getAttribute_id. by rewrite Hid. }
  assert (Hclicked :
    componentClick (app_color (run evs)) svg i (getAttribute_id e) VNull !! i
    = Some (set_fill (app_color (run evs)) e)).
  { rewrite componentClick_alone_lookup by done.
    rewrite decide_True by done. by rewrite Hi. }
  assert (Hothers : ∀ j, j ≠ i →
    componentClick (app_color (run evs)) svg i (getAttribute_id e) VNull !! j
    = svg !! j).
  { intros j Hj. rewrite componentClick_alone_lookup by done.
    by rewrite decide_False. }
  pose proof (dispatch_click_loaded _ svg i e Hinv Hsvg Hl Hi Hf) as Hdoc.
  split_and!.
  - unfold fill_at. change (step (run evs) (ClickShape i)) with (dispatch_click i (run evs)).
    rewrite Hdoc, Hclicked. done.
  - intros j Hj. unfold fill_at.
    change (step (run evs) (ClickShape i)) with (dispatch_click i (run evs)).
    rewrite Hdoc, Hsvg, (Hothers j Hj). done.
  - eexists. split; [exact Hdoc|]. split_and!.
    + eexists. split; [exact Hclicked|]. by split.
    + exact Hclicked.
    + exact Hothers.
Qed.

(** The crescent flag is loaded, the sixth swatch is picked and the field,
    which has no id, is clicked: the fill attribute of the field is the
    swatch's colour, and the crescent and the star keep their placeholder
    colours. *)
Lemma click_without_identity_repaints_one_witness :
  fill_at (step (run (load_then_pick 5)) (ClickShape 0)) 0 = Some "#003DA5" ∧
  fill_at (step (run (load_then_pick 5)) (ClickShape 0)) 1 = Some "#9D9D9D" ∧
  fill_at (step (run (load_then_pick 5)) (ClickShape 0)) 3 = Some "#909090".
Proof.
  destruct (click_without_identity_repaints_one (load_then_pick 5)
              (x_svg (extractSvgData crescent_flag)) 0
              (add_listener (listener_of 0 (shape None "#C8102E"))
                 (set_fill (VString "#A7A7A7") (shape None "#C8102E"))))
    as (Hfill & Hothers & _);
    [reflexivity | reflexivity | reflexivity | reflexivity | reflexivity |].
  split_and!.
  - exact Hfill.
  - rewrite (Hothers 1) by lia. reflexivity.
  - rewrite (Hothers 3) by lia. reflexivity.
Defined.

(** ** C10 *)

Lemma step_without_swatch (st : app_state) (ev : event) :
  is_swatch_click ev = false →
  picker_selectedColor (step st ev) = picker_selectedColor st ∧
  app_color (step st ev) = app_color st ∧
  selectColor_calls (step st ev) = selectColor_calls st ∧
  flag_selectedColorRef (step st ev) = flag_selectedColorRef st.
Proof.
  destruct ev as [n|code|doc| |i]; simpl; intros H; try done.
  - unfold setFlag. by case_decide.
  - by destruct (loadFlag_timeout_frame st) as (_ & -> & -> & -> & ->).
  - unfold dispatch_click. destruct (document_svg st) as [svg|]; [|done].
    by destruct (svg !! i).
Qed.

Lemma pick_swatch_color (st : app_state) (n : nat) (c : string) :
  app_inv st → swatches !! n = Some c →
  app_color (step st (PickSwatch n)) = VString c ∧
  picker_selectedColor (step st (PickSwatch n)) = VString c ∧
  flag_selectedColorRef (step st (PickSwatch n)) = VString c.
Proof.
  intros [Href Hpick Hls] Hn. simpl. rewrite Hn. unfold setSelectedColor.
  case_decide as Hc.
  - rewrite Href, <- Hpick. done.
  - unfold picker_effect, selectColor, setColor. simpl.
    case_decide as Hc'; [|done]. simpl in Hc'. congruence.
Qed.

(** C10. The first render has the colour "#FFFFFF" in [App]; once the
    effects of the mount have run, the selection of [ColourPicker] is
    [null], [selectColor] has been called once, with [null], and the colour
    of [App] is [null].  All this stays so, and the ref of [Flag] holds
    [null], as long as no swatch is clicked; a click on a swatch makes its
    colour the colour of [App]. *)
Theorem picker_mounts_with_null (evs : list event) :
  no_swatch_click evs = true →
  app_color first_render = VString "#FFFFFF" ∧
  picker_selectedColor mount = VNull ∧
  selectColor_calls mount = [VNull] ∧
  app_color mount = VNull ∧
  picker_selectedColor (run evs) = VNull ∧
  selectColor_calls (run evs) = [VNull] ∧
  app_color (run evs) = VNull ∧
  flag_selectedColorRef (run evs) = VNull ∧
  ∀ n c, swatches !! n = Some c →
    app_color (step (run evs) (PickSwatch n)) = VString c.
Proof.
  intros Hno. split_and!; try reflexivity.
  1-4: revert Hno; unfold run; induction evs as [|ev evs IH] using rev_ind;
    [done | intros Hno; unfold no_swatch_click in Hno;
     rewrite forallb_app in Hno; apply andb_prop in Hno as [Hevs Hev];
     simpl in Hev; rewrite andb_true_r in Hev; apply negb_true_iff in Hev;
     rewrite foldl_app; cbn [foldl];
     destruct (step_without_swatch (foldl step mount evs) ev Hev) as (H1 & H2 & H3 & H4);
     rewrite ?H1, ?H2, ?H3, ?H4; by apply IH].
  intros n c Hn. by apply pick_swatch_color; [apply app_inv_run|].
Qed.

Lemma picker_mounts_with_null_witness :
  no_swatch_click browse_without_picking = true ∧
  app_color (run browse_without_picking) = VNull ∧
  selectColor_calls (run browse_without_picking) = [VNull] ∧
  fill_at (run browse_without_picking) 0 = Some "null".
Proof.
  split; [reflexivity|].
  destruct (picker_mounts_with_null browse_without_picking) as (_ & _ & _ & _ & _ & Hcalls & Hcolor & _);
    [reflexivity|].
  split_and!; [exact Hcolor | exact Hcalls | reflexivity].
Defined.

(** ** The components map *)

(** The loop has thrown nothing only if no id on its way names an
    inherited member. *)
Lemma extract_loop_completed (svg : list element) (p : list nat) :
  NoDup p → x_thrown (extract_loop svg p) = false → Forall (safe_at svg) p.
Proof.
  intros Hnd Hrun.
  destruct (extract_loop_reach svg p Hnd) as (q & _ & Hsafe & _ & _ & Hq & _).
  by rewrite <- (Hq Hrun).
Qed.

Lemma record_component_lookup (i : nat) (id color : value)
    (m m' : gmap string (list component)) (k : string) (cs : list component)
    (c : component) :
  record_component i id color m = Some m' →
  m' !! k = Some cs → c ∈ cs →
  (k = property_key id ∧ c = {| c_el := i; c_id := id; c_color := color |}) ∨
  (k = property_key id ∧ truthy id = true ∧ ∃ old, m !! k = Some old ∧ c ∈ old) ∨
  (k ≠ property_key id ∧ m !! k = Some cs).
Proof.
  unfold record_component, get_property. intros Hm Hk Hc.
  destruct (decide (k = property_key id)) as [-> | Hne].
  - destruct (truthy id) eqn:Hid;
      [destruct (m !! property_key id) as [old|] eqn:Hold;
         [|destruct (inherits (property_key id)); [done|]]|];
      injection Hm as <-; rewrite lookup_insert_eq in Hk; injection Hk as <-.
    + apply elem_of_cons in Hc as [-> | Hc]; [by left | right; left; eauto].
    + apply list_elem_of_singleton in Hc as ->. by left.
    + apply list_elem_of_singleton in Hc as ->. by left.
  - right; right. split; [done|].
    destruct (truthy id);
      [destruct (m !! property_key id);
         [|destruct (inherits (property_key id)); [done|]]|];
      injection Hm as <-; by rewrite lookup_insert_ne in Hk.
Qed.

Lemma filter_plain_snoc (svg : list element) (p : list nat) (i : nat) :
  filter (plain svg) (p ++ [i]) =
  filter (plain svg) p ++ (if decide (plain svg i) then [i] else []).
Proof. rewrite filter_app. f_equal. Qed.

Lemma components_inv_step (svg : list element) (p : list nat) (st : extract_state) (i : nat) :
  extract_inv svg p st → x_thrown st = false → i ∉ p → safe_at svg i →
  components_inv svg p (x_newFlagComponents st) →
  components_inv svg (p ++ [i]) (x_newFlagComponents (extract_each st i)).
Proof.
  intros Hinv Hrun Hi Hsafe [Hown Hnull].
  pose proof (inv_untouched _ _ _ Hinv i Hi) as Hcur.
  pose proof (filter_plain_snoc svg p i) as Hfilter.
  destruct (svg !! i) as [e|] eqn:He.
  - destruct (extract_each_components st i e Hrun Hcur (Hsafe e He)) as (m & Hm & ->).
    split.
    + intros k cs c Hk Hc.
      destruct (record_component_lookup _ _ _ _ _ _ _ _ Hm Hk Hc)
        as [[-> ->] | [(-> & _ & old & Hold & Hin) | [Hne Hold]]].
      * exists e. simpl. by rewrite He.
      * apply (Hown _ _ _ Hold Hin).
      * apply (Hown _ _ _ Hold Hc).
    + intros cs c Hk Hc Hid. rewrite Hfilter.
      destruct (record_component_lookup _ _ _ _ _ _ _ _ Hm Hk Hc)
        as [[Hkey ->] | [(Hkey & Htruthy & old & Hold & Hin) | [Hne Hold]]].
      * simpl in Hid. rewrite decide_True.
        -- by rewrite last_snoc.
        -- unfold plain. rewrite He. simpl. unfold getAttribute_id in Hid.
           by destruct (attr_id e).
      * rewrite decide_False.
        -- rewrite app_nil_r. by apply (Hnull old c).
        -- unfold plain. rewrite He. simpl. unfold getAttribute_id in Htruthy.
           by destruct (attr_id e).
      * rewrite decide_False.
        -- rewrite app_nil_r. by apply (Hnull cs c).
        -- unfold plain. rewrite He. simpl. intros [= Hplain]. apply Hne.
           unfold getAttribute_id. by rewrite Hplain.
  - rewrite (extract_each_absent st i Hcur).
    rewrite decide_False, app_nil_r in Hfilter by (unfold plain; by rewrite He).
    split; [done|]. rewrite Hfilter. apply Hnull.
Qed.

Lemma components_inv_loop (svg : list element) (p : list nat) :
  NoDup p → Forall (safe_at svg) p →
  components_inv svg p (x_newFlagComponents (extract_loop svg p)).
Proof.
  induction p as [|i p IH] using rev_ind; intros Hnd Hsafe.
  - split; intros *; simpl; by rewrite lookup_empty.
  - apply NoDup_app in Hnd as (Hp & Hdisj & _).
    apply Forall_app in Hsafe as [Hsafe Hsi].
    apply (proj1 (Forall_singleton _ _)) in Hsi.
    assert (i ∉ p) as Hi.
    { intros Hin. apply (Hdisj i Hin). apply list_elem_of_here. }
    rewrite extract_loop_snoc.
    apply components_inv_step;
      [by apply extract_loop_inv | by apply extract_loop_running | exact Hi
       | exact Hsi | by apply IH].
Qed.

(** On every document on which [extractSvgData] throws nothing, a shape
    without id attribute that is followed by another such shape is in no
    entry of the map that is handed to [setFlagComponents]. *)
Lemma extractSvgData_keeps_last_identityless (svg : list element)
    (a b i j : nat) (ei ej : element) :
  x_thrown (extractSvgData svg) = false →
  a < b →
  querySelectorAll svg !! a = Some i → querySelectorAll svg !! b = Some j →
  svg !! i = Some ei → svg !! j = Some ej →
  attr_id ei = None → attr_id ej = None →
  ∀ k cs c, x_newFlagComponents (extractSvgData svg) !! k = Some cs →
    c ∈ cs → c_el c ≠ i.
Proof.
  intros Hrun Hab Ha Hb Hi Hj Hidi Hidj k cs c Hk Hc Hel.
  destruct (components_inv_loop svg _ (querySelectorAll_NoDup svg)
              (extract_loop_completed svg _ (querySelectorAll_NoDup svg) Hrun))
    as [Hown Hnull].
  fold (extractSvgData svg) in Hown, Hnull.
  destruct (Hown k cs c Hk Hc) as (e & He & Hid & Hkey).
  rewrite Hel, Hi in He. injection He as <-.
  assert (c_id c = VNull) as Hnullid.
  { rewrite Hid. unfold getAttribute_id. by rewrite Hidi. }
  rewrite Hnullid in Hkey. simpl in Hkey. subst k.
  pose proof (Hnull cs c Hk Hc Hnullid) as Hlast. rewrite Hel in Hlast.
  pose proof (querySelectorAll_NoDup svg) as Hnd.
  rewrite <- (take_drop_middle _ _ _ Hb) in Hlast, Hnd.
  rewrite filter_app, filter_cons_True in Hlast
    by (unfold plain; rewrite Hj; simpl; by rewrite Hidj).
  rewrite last_app_cons in Hlast. apply last_Some_elem_of in Hlast.
  assert (i ∈ j :: drop (S b) (querySelectorAll svg)) as Hin.
  { apply elem_of_cons in Hlast as [-> | Hin]; [apply list_elem_of_here|].
    apply list_elem_of_further. by apply list_elem_of_filter in Hin as [_ Hin]. }
  apply NoDup_app in Hnd as (_ & Hdisj & _).
  apply (Hdisj i); [|done].
  apply list_elem_of_lookup. exists a. by rewrite lookup_take_lt.
Qed.

(** ** C2 *)

(** C2. On two stripes without ids, [extractSvgData] stores both under the
    property key "null", the second entry replacing the first: the map it
    hands to [setFlagComponents] has that one key, holding the second stripe
    only, and the first stripe is in no entry. *)
Theorem extractSvgData_overwrites_identityless :
  x_newFlagComponents (extractSvgData two_stripes)
  = {[ "null" := [ {| c_el := 1; c_id := VNull; c_color := VString "#FFD700" |} ] ]} ∧
  ∀ k cs c, x_newFlagComponents (extractSvgData two_stripes) !! k = Some cs →
    c ∈ cs → c_el c ≠ 0.
Proof.
  assert (H : x_newFlagComponents (extractSvgData two_stripes)
    = {[ "null" := [ {| c_el := 1; c_id := VNull; c_color := VString "#FFD700" |} ] ]}).
  { vm_compute. reflexivity. }
  split; [exact H|].
  intros k cs c Hk Hc. rewrite H in Hk.
  apply lookup_singleton_Some in Hk as [_ <-].
  apply list_elem_of_singleton in Hc as ->. done.
Qed.

(** ** C3 and C8 on sample documents *)



(** ** The generator *)

Module GeneratorProofs.
Import Generator.

Section LayoutProofs.

Variable regions : Directive → nat.
Variable background : list Directive → nat.

Lemma claim_error (n : nat) (colours : list string) (cursor : nat) (e : error) :
  claim n colours cursor = inl e → e = InsufficientColours.
Proof. unfold claim. case_decide; congruence. Qed.

Lemma claim_insufficient (n : nat) (colours : list string) (cursor : nat) :
  claim n colours cursor = inl InsufficientColours ↔ length colours < cursor + n.
Proof. unfold claim. case_decide; split; intros; try done; lia. Qed.

Lemma claim_ok (n : nat) (colours : list string) (cursor : nat)
    (cs : list string) (cursor' : nat) :
  claim n colours cursor = inr (cs, cursor') →
  cursor + n ≤ length colours ∧ cursor' = cursor + n ∧
  cs = take n (drop cursor colours) ∧ length cs = n.
Proof.
  unfold claim. case_decide; [|done]. intros [= <- <-].
  split_and!; try done. rewrite length_take, length_drop. lia.
Qed.

Lemma sum_regions_cons (d : Directive) (ds : list Directive) :
  sum_list (regions <$> d :: ds) = regions d + sum_list (regions <$> ds).
Proof. done. Qed.

Lemma layout_from_error (ds : list Directive) (colours : list string)
    (cursor : nat) (e : error) :
  layout_from regions cursor ds colours = inl e → e = InsufficientColours.
Proof.
  revert cursor. induction ds as [|d ds IH]; intros cursor; simpl; [done|].
  destruct (claim (regions d) colours cursor) as [e'|[cs cursor']] eqn:Hc.
  - intros [= <-]. by eapply claim_error.
  - destruct (layout_from regions cursor' ds colours) as [e'|out] eqn:Hl; [|done].
    intros [= <-]. by eapply IH.
Qed.

Lemma layout_from_insufficient (ds : list Directive) (colours : list string)
    (cursor : nat) :
  cursor ≤ length colours →
  (layout_from regions cursor ds colours = inl InsufficientColours ↔
   length colours < cursor + sum_list (regions <$> ds)).
Proof.
  revert cursor. induction ds as [|d ds IH]; intros cursor Hcur.
  - simpl. split; [done | lia].
  - rewrite sum_regions_cons. cbn [layout_from]. destruct (claim (regions d) colours cursor) as [e'|[cs cursor']] eqn:Hc.
    + pose proof (claim_error _ _ _ _ Hc) as ->.
      apply claim_insufficient in Hc. split; [lia | done].
    + apply claim_ok in Hc as (Hle & -> & _ & _).
      specialize (IH (cursor + regions d) Hle).
      destruct (layout_from regions (cursor + regions d) ds colours) as [e'|out] eqn:Hl.
      * pose proof (layout_from_error _ _ _ _ Hl) as ->.
        destruct IH as [IH _]. specialize (IH eq_refl).
        split; [intros _; lia | done].
      * destruct IH as [_ IH]. split; [done|]. intros Hlt.
        assert (length colours < cursor + regions d + sum_list (regions <$> ds)) as Hlt'
          by lia.
        by specialize (IH Hlt').
Qed.

Lemma layout_from_ok (ds : list Directive) (colours : list string)
    (cursor : nat) (out : list (Directive * list string)) :
  layout_from regions cursor ds colours = inr out →
  out.*1 = ds ∧
  (∀ d cs, (d, cs) ∈ out → length cs = regions d) ∧
  concat out.*2 = take (sum_list (regions <$> ds)) (drop cursor colours).
Proof.
  revert cursor out. induction ds as [|d ds IH]; intros cursor out.
  - simpl. intros [= <-]. split_and!; [done | | done].
    intros d cs H. by apply elem_of_nil in H.
  - rewrite sum_regions_cons. cbn [layout_from]. destruct (claim (regions d) colours cursor) as [e'|[cs cursor']] eqn:Hc; [done|].
    apply claim_ok in Hc as (Hle & -> & -> & Hlen).
    destruct (layout_from regions (cursor + regions d) ds colours) as [e'|out'] eqn:Hl;
      [done|].
    intros [= <-]. destruct (IH _ _ Hl) as (Hds & Hlens & Hcat).
    split_and!.
    + csimpl. by rewrite Hds.
    + intros d' cs' Hin. apply elem_of_cons in Hin as [[= -> ->] | Hin]; [done|].
      by apply Hlens.
    + csimpl. rewrite Hcat, <- drop_drop. apply take_take_drop.
Qed.

(** C4. The layout fails with [InsufficientColours] exactly when the
    colour list is shorter than the number of regions the directive
    sequence demands; it fails with no other error; and when it succeeds
    nothing was dropped: the background and every directive hold as many
    colours as they claim, taken in order from the front of the list. *)
Theorem layout_insufficient_colours (ds : list Directive) (colours : list string) :
  (layout regions background ds colours = inl InsufficientColours ↔
   length colours < demand regions background ds) ∧
  (∀ e, layout regions background ds colours = inl e → e = InsufficientColours) ∧
  (∀ bg out, layout regions background ds colours = inr (bg, out) →
     length bg = background ds ∧
     out.*1 = ds ∧
     (∀ d cs, (d, cs) ∈ out → length cs = regions d) ∧
     bg ++ concat out.*2 = take (demand regions background ds) colours).
Proof.
  unfold layout, demand.
  destruct (claim (background ds) colours 0) as [e|[bg cursor]] eqn:Hc.
  - pose proof (claim_error _ _ _ _ Hc) as ->.
    apply claim_insufficient in Hc.
    split_and!; [split; [lia | done] | by intros e [= <-] | done].
  - apply claim_ok in Hc as (Hle & -> & -> & Hlen). simpl in Hle.
    pose proof (layout_from_insufficient ds colours (background ds) Hle) as Hiff.
    destruct (layout_from regions (0 + background ds) ds colours) as [e|out] eqn:Hl.
    + pose proof (layout_from_error _ _ _ _ Hl) as ->. simpl in Hl.
      split_and!; [split; [intros _; by apply Hiff | done] | by intros e [= <-] | done].
    + simpl in Hl. rewrite Hl in Hiff. split_and!.
      * split; [done|]. intros Hlt. by apply Hiff in Hlt.
      * done.
      * intros bg' out' [= <- <-].
        destruct (layout_from_ok _ _ _ _ Hl) as (Hds & Hlens & Hcat).
        split_and!; try done. rewrite Hcat. simpl. apply take_take_drop.
Qed.

End LayoutProofs.

(** *** Stripes *)

Lemma Qsum_scaled (dim total : Q) (ratios : list Q) :
  (¬ total == 0)%Q →
  (Qsum ((fun r => dim * r / total) <$> ratios) == dim * Qsum ratios / total)%Q.
Proof.
  intros Htotal. induction ratios as [|r ratios IH]; csimpl.
  - field. done.
  - rewrite IH. field. done.
Qed.

Lemma Qsum_positive (ratios : list Q) :
  ratios ≠ [] → Forall (fun r => (0 < r)%Q) ratios → (0 < Qsum ratios)%Q.
Proof.
  intros Hne Hpos. destruct ratios as [|r ratios]; [done|]. clear Hne.
  apply Forall_cons in Hpos as [Hr Hpos]. simpl.
  assert (0 <= Qsum ratios)%Q as Hrest.
  { clear Hr. induction Hpos as [|r' ratios' Hr' _ IH]; simpl; [apply Qle_refl|].
    apply Qlt_le_weak in Hr'.
    replace 0%Q with (0 + 0)%Q by done. by apply Qplus_le_compat. }
  replace 0%Q with (0 + 0)%Q by done. by apply Qplus_lt_le_compat.
Qed.

Lemma segments_from_extent (o : orientation) (width height : Q) (all : list Q)
    (at_ : Q) (ratios : list Q) :
  extent o <$> segments_from o width height all at_ ratios
  = segment_size (canvas_dimension o width height) all <$> ratios.
Proof.
  revert at_. induction ratios as [|r ratios IH]; intros at_; [done|].
  destruct o; csimpl; by rewrite IH.
Qed.

(** Each segment starts where the previous one ends. *)
Lemma segments_from_adjacent (o : orientation) (width height : Q) (all : list Q)
    (at_ : Q) (ratios : list Q) (k : nat) (s s' : rect) :
  segments_from o width height all at_ ratios !! k = Some s →
  segments_from o width height all at_ ratios !! S k = Some s' →
  offset o s' = (offset o s + extent o s)%Q.
Proof.
  revert at_ k. induction ratios as [|r ratios IH]; intros at_ k; [done|].
  destruct k as [|k].
  - destruct ratios as [|r' ratios]; [by destruct o|].
    destruct o; simpl; by intros [= <-] [= <-].
  - destruct o; simpl; apply IH.
Qed.

(** C6. For a stripe set of either orientation with at least one ratio, all
    ratios positive, the extent of each segment along the orientation is the
    canvas dimension times its ratio over the sum of the ratios; the first
    segment starts at the canvas edge and each next one where the previous
    one ends; and the extents add up to the canvas dimension. *)
Theorem stripes_fill_canvas (o : orientation) (width height : Q) (ratios : list Q) :
  ratios ≠ [] → Forall (fun r => (0 < r)%Q) ratios →
  let segments := stripes width height (StripeSet o ratios) in
  let dim := canvas_dimension o width height in
  extent o <$> segments = (fun r => (dim * r / Qsum ratios)%Q) <$> ratios ∧
  (∀ s, segments !! 0 = Some s → offset o s = 0%Q) ∧
  (∀ k s s', segments !! k = Some s → segments !! S k = Some s' →
     offset o s' = (offset o s + extent o s)%Q) ∧
  (Qsum (extent o <$> segments) == dim)%Q.
Proof.
  intros Hne Hpos segments dim. subst segments dim. unfold stripes.
  pose proof (Qsum_positive ratios Hne Hpos) as Hsum.
  assert (¬ Qsum ratios == 0)%Q as Hnz.
  { intros H0. rewrite H0 in Hsum. by apply Qlt_irrefl in Hsum. }
  split_and!.
  - apply segments_from_extent.
  - destruct ratios as [|r ratios]; [done|]. destruct o; simpl; by intros s [= <-].
  - apply segments_from_adjacent.
  - rewrite segments_from_extent. unfold segment_size.
    rewrite Qsum_scaled by done. field. done.
Qed.

Lemma stripes_fill_canvas_witness :
  Forall2 Qeq (r_h <$> stripes 27 18 (StripeSet Horizontal [6; 1; 4; 1; 6]%Q))
    [6; 1; 4; 1; 6]%Q ∧
  (Qsum (r_h <$> stripes 27 18 (StripeSet Horizontal [6; 1; 4; 1; 6]%Q)) == 18)%Q.
Proof.
  destruct (stripes_fill_canvas Horizontal 27 18 [6; 1; 4; 1; 6]%Q)
    as (Hext & _ & _ & Hsum).
  - discriminate.
  - repeat constructor.
  - split; [|exact Hsum]. repeat constructor.
Defined.

(** *** Stars *)

Section StarProofs.

Local Open Scope R_scope.

Variable inner_radius : nat → R → R.

Lemma distance_polar (cx cy rho theta : R) :
  0 <= rho →
  distance (cx + rho * cos theta, cy + rho * sin theta) (cx, cy) = rho.
Proof.
  intros Hrho. unfold distance. simpl.
  replace ((cx + rho * cos theta - cx) * (cx + rho * cos theta - cx) +
           (cy + rho * sin theta - cy) * (cy + rho * sin theta - cy))
    with (Rsqr rho * (Rsqr (sin theta) + Rsqr (cos theta)))
    by (unfold Rsqr; ring).
  rewrite sin2_cos2, Rmult_1_r. by apply sqrt_Rsqr.
Qed.

Lemma vertex_angle_step (points : nat) (rot : R) (k : nat) :
  vertex_angle points rot (S k) - vertex_angle points rot k = PI / INR points.
Proof. unfold vertex_angle. rewrite S_INR. ring. Qed.

Lemma vertex_angle_first (points : nat) (rot : R) :
  vertex_angle points rot 0 = rot * PI / 180.
Proof. unfold vertex_angle, radians. simpl. ring. Qed.

Lemma star_polygon_lookup (points : nat) (cx cy r rot : Q) (k : nat) (v : R * R) :
  star_polygon inner_radius (Star points cx cy r rot) !! k = Some v ↔
  (k < 2 * points)%nat ∧
  v = star_vertex inner_radius points (Q2R cx) (Q2R cy) (Q2R r) (Q2R rot) k.
Proof.
  unfold star_polygon. rewrite list_lookup_fmap. split.
  - intros Hv. destruct (seq 0 (2 * points) !! k) as [k'|] eqn:Hk; [|done].
    apply lookup_seq in Hk as [-> Hk]. injection Hv as <-. done.
  - intros [Hk ->]. by rewrite lookup_seq_lt.
Qed.

(** C7. The polygon of a star directive has twice as many vertices as the
    star has points, and every one of them lies at its radius and angle
    from the centre (cx, cy): the distance of the [k]-th vertex to the
    centre is the outer radius [r] when [k] is even and the inner radius
    when [k] is odd, so that every vertex is at one of the two distances
    and the two alternate; the angle grows by the same amount, the half
    turn over the number of points, from each vertex to the next; and the
    first vertex, at the angle [rotationDegrees] (in radians), is an outer
    one. *)
Theorem star_vertices (points : nat) (cx cy r rot : Q) :
  0 <= Q2R r → 0 <= inner_radius points (Q2R r) →
  length (star_polygon inner_radius (Star points cx cy r rot)) = (2 * points)%nat ∧
  (∀ k, (k < 2 * points)%nat →
     is_Some (star_polygon inner_radius (Star points cx cy r rot) !! k)) ∧
  (∀ k v, star_polygon inner_radius (Star points cx cy r rot) !! k = Some v →
     v = (Q2R cx + vertex_radius inner_radius points (Q2R r) k
                   * cos (vertex_angle points (Q2R rot) k),
          Q2R cy + vertex_radius inner_radius points (Q2R r) k
                   * sin (vertex_angle points (Q2R rot) k)) ∧
     distance v (Q2R cx, Q2R cy)
       = (if Nat.even k then Q2R r else inner_radius points (Q2R r)) ∧
     vertex_radius inner_radius points (Q2R r) k
       = (if Nat.even k then Q2R r else inner_radius points (Q2R r)) ∧
     vertex_angle points (Q2R rot) (S k) - vertex_angle points (Q2R rot) k
       = PI / INR points) ∧
  (∀ v, v ∈ star_polygon inner_radius (Star points cx cy r rot) →
     distance v (Q2R cx, Q2R cy) = Q2R r ∨
     distance v (Q2R cx, Q2R cy) = inner_radius points (Q2R r)) ∧
  (∀ v, star_polygon inner_radius (Star points cx cy r rot) !! 0%nat = Some v →
     v = (Q2R cx + Q2R r * cos (Q2R rot * PI / 180),
          Q2R cy + Q2R r * sin (Q2R rot * PI / 180))) ∧
  vertex_angle points (Q2R rot) 0 = Q2R rot * PI / 180.
Proof.
  intros Hr Hinner.
  assert (Hdist : ∀ k v,
    star_polygon inner_radius (Star points cx cy r rot) !! k = Some v →
    distance v (Q2R cx, Q2R cy)
    = (if Nat.even k then Q2R r else inner_radius points (Q2R r))).
  { intros k v Hv. apply star_polygon_lookup in Hv as [_ ->].
    unfold star_vertex. rewrite distance_polar; [done|].
    unfold vertex_radius. by destruct (Nat.even k). }
  split_and!.
  - unfold star_polygon. by rewrite length_fmap, length_seq.
  - intros k Hk. eexists. by apply star_polygon_lookup.
  - intros k v Hv. split_and!.
    + by apply star_polygon_lookup in Hv as [_ ->].
    + by apply Hdist.
    + done.
    + apply vertex_angle_step.
  - intros v Hin. apply list_elem_of_lookup in Hin as [k Hk].
    rewrite (Hdist k v Hk). destruct (Nat.even k); [by left | by right].
  - intros v Hv. apply star_polygon_lookup in Hv as [_ ->].
    unfold star_vertex. by rewrite vertex_angle_first.
  - apply vertex_angle_first.
Qed.

End StarProofs.

Lemma star_vertices_witness :
  length (star_polygon (fun _ r => r / 2)%R (Star 5 197 120 30 270)) = 10 ∧
  ∃ v, star_polygon (fun _ r => r / 2)%R (Star 5 197 120 30 270) !! 1%nat = Some v ∧
       distance v (Q2R 197, Q2R 120) = (Q2R 30 / 2)%R.
Proof.
  destruct (star_vertices (fun _ r => r / 2)%R 5 197 120 30 270)
    as (Hlen & Hsome & Hall & _).
  - unfold Q2R. simpl. lra.
  - unfold Q2R. simpl. lra.
  - split; [exact Hlen|].
    destruct (Hsome 1%nat) as [v Hv]; [lia|].
    exists v. split; [exact Hv|].
    destruct (Hall 1%nat v Hv) as (_ & Hd & _). exact Hd.
Defined.

End GeneratorProofs.

(** * Further properties of the viewer *)

(** ** [componentClick] *)

Lemma lookup_fmap_length {A} (f : nat → A → A) (l l' : list A) :
  (∀ j, l' !! j = f j <$> l !! j) → length l' = length l.
Proof.
  intros H. destruct (decide (length l' = length l)) as [|Hne]; [done|]. exfalso.
  destruct (decide (length l' < length l)) as [Hlt|Hge].
  - destruct (lookup_lt_is_Some_2 l (length l') Hlt) as [x Hx].
    pose proof (H (length l')) as Hl. rewrite Hx in Hl. simpl in Hl.
    apply lookup_lt_Some in Hl. lia.
  - assert (length l < length l') as Hlt by lia.
    destruct (lookup_lt_is_Some_2 l' (length l) Hlt) as [x Hx].
    pose proof (H (length l)) as Hl. rewrite Hx in Hl.
    destruct (l !! length l) as [y|] eqn:Hy; [|done].
    apply lookup_lt_Some in Hy. lia.
Qed.

Lemma componentClick_length (current : value) (svg : list element)
    (component : nat) (id color : value) :
  length (componentClick current svg component id color) = length svg.
Proof.
  eapply (lookup_fmap_length (fun j e =>
     if truthy id
     then (if flag_component e then repaint current id e else e)
     else (if decide (component = j) then set_fill current e else e))).
  intros j. apply componentClick_lookup.
Qed.

(** X1. Whatever its arguments, [componentClick] leaves a document of the
    same length in which every element has the class, the id and the
    listeners it had, and whose fill attribute is either the one it had or
    the text of the current colour. *)
Theorem componentClick_changes_only_fill (current : value) (svg : list element)
    (component : nat) (id color : value) :
  length (componentClick current svg component id color) = length svg ∧
  Forall2 (fun e e' =>
             same_but_fill e e' ∧
             (attr_fill e' = attr_fill e ∨ attr_fill e' = Some (to_DOMString current)))
          svg (componentClick current svg component id color).
Proof.
  split; [apply componentClick_length|].
  apply Forall2_same_length_lookup_2; [by rewrite componentClick_length|].
  intros j e e' He He'. split.
  - apply componentClick_same_but_fill in He' as (e0 & He0 & Hsame). congruence.
  - rewrite componentClick_lookup, He in He'. simpl in He'. injection He' as <-.
    unfold repaint. destruct (truthy id).
    + destruct (flag_component e); [|by left].
      destruct (strict_eq _ _); [by right | by left].
    + case_decide; [by right | by left].
Qed.

(** X2. Called with a truthy id, [componentClick] leaves untouched every
    element that is no shape, even one with that id, and every shape with
    another id or none; the [component] it is given plays no part. *)
Theorem componentClick_group_frame (current : value) (svg : list element)
    (component : nat) (id color : value) (j : nat) (e : element) :
  truthy id = true → svg !! j = Some e →
  flag_component e = false ∨ getAttribute_id e ≠ id →
  componentClick current svg component id color !! j = Some e ∧
  ∀ component', componentClick current svg component' id color
                = componentClick current svg component id color.
Proof.
  intros Hid He Hother. split.
  - rewrite componentClick_group_lookup, He by done. simpl. f_equal.
    destruct Hother as [-> | Hne]; [done|].
    destruct (flag_component e); [|done].
    unfold repaint, strict_eq. by rewrite bool_decide_eq_false_2.
  - intros component'. unfold componentClick. by rewrite Hid.
Qed.

Lemma componentClick_group_frame_witness :
  componentClick (VString "#C8102E") crescent_flag 1 (VString "moon") VNull !! 3
    = Some (shape (Some "star") "#FFFFFF") ∧
  ∀ component', componentClick (VString "#C8102E") crescent_flag component' (VString "moon") VNull
                = componentClick (VString "#C8102E") crescent_flag 1 (VString "moon") VNull.
Proof.
  apply (componentClick_group_frame (VString "#C8102E") crescent_flag 1
           (VString "moon") VNull 3 (shape (Some "star") "#FFFFFF")).
  - reflexivity.
  - reflexivity.
  - right. discriminate.
Defined.

Lemma repaint_over (c1 c2 id : value) (e : element) :
  repaint c2 id (repaint c1 id e) = repaint c2 id e.
Proof.
  unfold repaint. destruct (strict_eq (getAttribute_id e) id) eqn:H; simpl.
  - unfold getAttribute_id in *. simpl. rewrite H. done.
  - rewrite H. done.
Qed.

(** X3. Painting over: two calls of [componentClick] with the same
    component and id leave what the second alone leaves, so the last colour
    wins and nothing of the first remains. *)
Theorem componentClick_paints_over (c1 c2 : value) (svg : list element)
    (component : nat) (id color color' : value) :
  componentClick c2 (componentClick c1 svg component id color) component id color'
  = componentClick c2 svg component id color'.
Proof.
  apply list_eq. intros j. rewrite !componentClick_lookup.
  destruct (svg !! j) as [e|]; [|done]. simpl. f_equal.
  destruct (truthy id).
  - destruct (flag_component e) eqn:Hf.
    + assert (flag_component (repaint c1 id e) = true) as ->.
      { unfold repaint. by destruct (strict_eq _ _). }
      apply repaint_over.
    + by rewrite Hf.
  - by case_decide.
Qed.

(** ** [extractSvgData] *)

(** X4. On a document none of whose shape ids names a member that a plain
    object inherits, [extractSvgData] leaves a document of the same length;
    an element that is no shape is left as it was; a shape keeps its class
    and id and the listeners it had, and gains exactly one listener, put
    last, which captured the shape's position, its id and the fill it had
    before the placeholder colour was set. *)
Theorem extractSvgData_adds_one_listener (svg : list element) (j : nat) (e : element) :
  ids_safe svg = true →
  svg !! j = Some e →
  length (x_svg (extractSvgData svg)) = length svg ∧
  ∃ e', x_svg (extractSvgData svg) !! j = Some e' ∧
        same_identity e e' ∧
        (flag_component e = false → e' = e) ∧
        (flag_component e = true →
           listeners e' = listeners e ++
             [{| l_el := j; l_id := getAttribute_id e; l_color := getAttribute_fill e |}]).
Proof.
  intros Hsafe Hj. split; [apply extractSvgData_length|].
  destruct (flag_component e) eqn:Hf.
  - destruct (extractSvgData_shape svg j e Hsafe Hj Hf) as (r & _ & He).
    eexists. split; [exact He|]. by split_and!.
  - exists e. split; [by apply extractSvgData_other|]. by split_and!.
Qed.

Lemma extractSvgData_adds_one_listener_witness :
  ids_safe crescent_flag = true ∧
  ∃ e', x_svg (extractSvgData crescent_flag) !! 2 = Some e' ∧
        listeners e' =
          [{| l_el := 2; l_id := VString "moon"; l_color := VString "#FFFFFF" |}].
Proof.
  split; [reflexivity|].
  destruct (extractSvgData_adds_one_listener crescent_flag 2 (shape (Some "moon") "#FFFFFF"))
    as (_ & e' & He' & _ & _ & Hl); [reflexivity | reflexivity |].
  exists e'. split; [exact He'|]. apply Hl. reflexivity.
Defined.

(** X5. On a document without shapes, the empty document included,
    [extractSvgData] changes nothing, pops nothing, and hands the empty map
    to [setFlagComponents]. *)
Theorem extractSvgData_without_shapes (svg : list element) :
  Forall (fun e => flag_component e = false) svg →
  x_svg (extractSvgData svg) = svg ∧
  x_grays (extractSvgData svg) = grays ∧
  x_usedGreys (extractSvgData svg) = ∅ ∧
  x_newFlagComponents (extractSvgData svg) = ∅.
Proof.
  intros Hnone.
  assert (querySelectorAll svg = []) as Hq.
  { destruct (querySelectorAll svg) as [|j l] eqn:Hq; [done|]. exfalso.
    assert (j ∈ querySelectorAll svg) as Hin by (rewrite Hq; apply list_elem_of_here).
    apply elem_of_querySelectorAll in Hin as (e & He & Hf).
    rewrite Forall_forall in Hnone.
    assert (e ∈ svg) as Hin by (apply list_elem_of_lookup; eauto).
    apply Hnone in Hin. congruence. }
  unfold extractSvgData. rewrite Hq. done.
Qed.

Lemma extractSvgData_without_shapes_witness :
  x_svg (extractSvgData [Element false (Some "frame") None []])
    = [Element false (Some "frame") None []] ∧
  x_newFlagComponents (extractSvgData [Element false (Some "frame") None []]) = ∅.
Proof.
  destruct (extractSvgData_without_shapes [Element false (Some "frame") None []])
    as (Hsvg & _ & _ & Hm).
  - repeat constructor.
  - split; [exact Hsvg | exact Hm].
Defined.

(** X6. On a document none of whose shape ids names a member that a plain
    object inherits, [extractSvgData] ends with the palette holding its
    first entries, as many as four less the number of distinct shape groups,
    and none when there are four groups or more. *)
Theorem extractSvgData_palette_left (svg : list element) :
  ids_safe svg = true →
  x_grays (extractSvgData svg) = take (4 - length (shape_groups svg)) grays ∧
  length (x_grays (extractSvgData svg)) = 4 - length (shape_groups svg).
Proof.
  intros Hsafe.
  pose proof (extractSvgData_inv svg Hsafe) as Hinv.
  pose proof (inv_grays _ _ _ Hinv) as Hg.
  fold (shape_groups svg) in Hg. split; [done|].
  rewrite Hg, length_take. unfold grays. simpl. lia.
Qed.

Lemma extractSvgData_palette_left_witness :
  ids_safe crescent_flag = true ∧
  x_grays (extractSvgData crescent_flag) = ["#808080"].
Proof.
  split; [reflexivity|].
  destruct (extractSvgData_palette_left crescent_flag) as [Hg _]; [reflexivity|].
  exact Hg.
Defined.

(** X7. On a document none of whose shape ids names a member that a plain
    object inherits, [extractSvgData] ends with [usedGreys] having an own
    entry exactly for the non-empty ids of the shapes, and the entry of the
    id whose group is the [r]-th to appear is the value of the [r]-th pop. *)
Theorem extractSvgData_usedGreys (svg : list element) (s : string) :
  ids_safe svg = true →
  (is_Some (x_usedGreys (extractSvgData svg) !! s) ↔
   s ≠ EmptyString ∧ ∃ j e, svg !! j = Some e ∧ flag_component e = true ∧
                            attr_id e = Some s) ∧
  (∀ r, shape_groups svg !! r = Some (ById s) →
        x_usedGreys (extractSvgData svg) !! s = Some (popped r)).
Proof.
  intros Hsafe.
  pose proof (extractSvgData_inv svg Hsafe) as Hinv.
  assert (Hgroup : ById s ∈ shape_groups svg ↔
            s ≠ EmptyString ∧ ∃ j e, svg !! j = Some e ∧ flag_component e = true ∧
                                     attr_id e = Some s).
  { unfold shape_groups. rewrite elem_of_first_seen. unfold groups_at.
    rewrite list_elem_of_omap. split.
    - intros (j & Hj & Hg). apply elem_of_querySelectorAll in Hj as (e & He & Hf).
      rewrite He in Hg. simpl in Hg. injection Hg as Hg. unfold group_of in Hg.
      destruct (attr_id e) as [t|] eqn:Ht; [|done].
      destruct (String.eqb t EmptyString) eqn:E; [done|]. injection Hg as ->.
      split; [|eauto]. intros ->. done.
    - intros (Hs & j & e & He & Hf & Hid). exists j. split.
      + apply elem_of_querySelectorAll. eauto.
      + rewrite He. simpl. unfold group_of. rewrite Hid.
        destruct (String.eqb s EmptyString) eqn:E; [|done].
        by apply String.eqb_eq in E. }
  split.
  - rewrite <- Hgroup. split.
    + intros Hsome. destruct (decide (ById s ∈ shape_groups svg)) as [|Hnin]; [done|].
      rewrite (inv_used_fresh _ _ _ Hinv s Hnin) in Hsome. by destruct Hsome.
    + intros Hin. apply list_elem_of_lookup in Hin as [r Hr].
      rewrite (inv_used_seen _ _ _ Hinv r s Hr). eauto.
  - intros r Hr. apply (inv_used_seen _ _ _ Hinv r s Hr).
Qed.

Lemma extractSvgData_usedGreys_witness :
  ids_safe crescent_flag = true ∧
  x_usedGreys (extractSvgData crescent_flag) !! "star" = Some (VString "#909090").
Proof.
  split; [reflexivity|].
  destruct (extractSvgData_usedGreys crescent_flag "star") as [_ Hr]; [reflexivity|].
  apply (Hr 2). reflexivity.
Defined.

(** ** The map handed to [setFlagComponents] *)

Lemma components_keys_loop (svg : list element) (p : list nat) (k : string) :
  NoDup p → Forall (safe_at svg) p →
  is_Some (x_newFlagComponents (extract_loop svg p) !! k) ↔
  ∃ j, j ∈ p ∧ key_at svg j = Some k.
Proof.
  induction p as [|i p IH] using rev_ind; intros Hnd Hsafe.
  - simpl. rewrite lookup_empty. split; [by intros [? ?]|].
    intros (j & Hj & _). by apply elem_of_nil in Hj.
  - apply NoDup_app in Hnd as (Hp & Hdisj & _).
    apply Forall_app in Hsafe as [Hsafe Hsi].
    apply (proj1 (Forall_singleton _ _)) in Hsi.
    assert (i ∉ p) as Hi.
    { intros Hin. apply (Hdisj i Hin). apply list_elem_of_here. }
    pose proof (extract_loop_inv svg p Hp Hsafe) as Hinv.
    pose proof (extract_loop_running svg p Hp Hsafe) as Hrun.
    pose proof (inv_untouched _ _ _ Hinv i Hi) as Hcur.
    rewrite extract_loop_snoc.
    destruct (svg !! i) as [e|] eqn:He.
    + destruct (extract_each_components _ i e Hrun Hcur (Hsi e He)) as (m & Hm & ->).
      destruct (record_component_safe i (getAttribute_id e) (getAttribute_fill e)
                  (x_newFlagComponents (extract_loop svg p)) (Hsi e He))
        as (m' & Hm' & Hkeys).
      rewrite Hm in Hm'. injection Hm' as <-.
      rewrite Hkeys, (IH Hp Hsafe).
      split.
      * intros [-> | (j & Hj & Hk)].
        -- exists i. split; [set_solver|]. unfold key_at. by rewrite He.
        -- exists j. split; [set_solver | done].
      * intros (j & Hj & Hk). apply elem_of_app in Hj as [Hj | Hj].
        -- right. eauto.
        -- apply list_elem_of_singleton in Hj as ->. left.
           unfold key_at in Hk. rewrite He in Hk. simpl in Hk. congruence.
    + rewrite (extract_each_absent _ i Hcur).
      rewrite (IH Hp Hsafe). split.
      * intros (j & Hj & Hk). exists j. split; [set_solver | done].
      * intros (j & Hj & Hk). apply elem_of_app in Hj as [Hj | Hj]; [eauto|].
        apply list_elem_of_singleton in Hj as ->.
        unfold key_at in Hk. by rewrite He in Hk.
Qed.

(** X8. On a document none of whose shape ids names a member that a plain
    object inherits, the map that [extractSvgData] hands to
    [setFlagComponents] has an own entry exactly under the property keys of
    the ids of the shapes (the key "null" for a shape without id), and every
    object in an entry records a shape of the document, with that shape's
    id, under the key of that id. *)
Theorem extractSvgData_components_keys (svg : list element) (k : string) :
  ids_safe svg = true →
  (is_Some (x_newFlagComponents (extractSvgData svg) !! k) ↔
   ∃ j e, svg !! j = Some e ∧ flag_component e = true ∧
          property_key (getAttribute_id e) = k) ∧
  (∀ cs c, x_newFlagComponents (extractSvgData svg) !! k = Some cs → c ∈ cs →
     ∃ e, svg !! c_el c = Some e ∧ c_id c = getAttribute_id e ∧
          property_key (c_id c) = k).
Proof.
  intros Hsafe. split.
  - unfold extractSvgData.
    rewrite (components_keys_loop svg _ k (querySelectorAll_NoDup svg)
               (ids_safe_shapes svg Hsafe)). split.
    + intros (j & Hj & Hk). apply elem_of_querySelectorAll in Hj as (e & He & Hf).
      exists j, e. unfold key_at in Hk. rewrite He in Hk. simpl in Hk.
      split_and!; congruence.
    + intros (j & e & He & Hf & Hk). exists j. split.
      * apply elem_of_querySelectorAll. eauto.
      * unfold key_at. rewrite He. simpl. by rewrite Hk.
  - intros cs c Hk Hc.
    destruct (components_inv_loop svg _ (querySelectorAll_NoDup svg)
                (ids_safe_shapes svg Hsafe)) as [Hown _].
    fold (extractSvgData svg) in Hown.
    destruct (Hown k cs c Hk Hc) as (e & He & Hid & Hkey). eauto.
Qed.

Lemma extractSvgData_components_keys_witness :
  ids_safe two_stripes = true ∧
  is_Some (x_newFlagComponents (extractSvgData two_stripes) !! "null").
Proof.
  split; [reflexivity|].
  destruct (extractSvgData_components_keys two_stripes "null") as [[_ Hkey] _];
    [reflexivity|].
  apply Hkey. exists 0, (shape None "#0057B7"). repeat split.
Defined.

Lemma record_component_ne (i : nat) (id color : value)
    (m m' : gmap string (list component)) (k : string) :
  record_component i id color m = Some m' → k ≠ property_key id →
  m' !! k = m !! k.
Proof.
  unfold record_component, get_property. intros Hm Hk.
  destruct (truthy id);
    [destruct (m !! property_key id);
       [|destruct (inherits (property_key id)); [done|]]|];
    injection Hm as <-; by rewrite lookup_insert_ne.
Qed.

Lemma filter_has_id_snoc (svg : list element) (s : string) (p : list nat) (i : nat) :
  filter (has_id svg s) (p ++ [i]) =
  filter (has_id svg s) p ++ (if decide (has_id svg s i) then [i] else []).
Proof. rewrite filter_app. f_equal. Qed.

Lemma entry_loop (svg : list element) (s : string) (p : list nat) :
  NoDup p → Forall (safe_at svg) p → s ≠ EmptyString → s ≠ "null" →
  x_newFlagComponents (extract_loop svg p) !! s =
  match omap (recorded svg) (filter (has_id svg s) p) with
  | [] => None
  | c :: cs => Some (reverse (c :: cs))
  end.
Proof.
  intros Hnd Hsafe Hs Hnull. induction p as [|i p IH] using rev_ind.
  - simpl. by rewrite lookup_empty.
  - apply NoDup_app in Hnd as (Hp & Hdisj & _).
    apply Forall_app in Hsafe as [Hsafe Hsi].
    apply (proj1 (Forall_singleton _ _)) in Hsi.
    assert (i ∉ p) as Hi.
    { intros Hin. apply (Hdisj i Hin). apply list_elem_of_here. }
    pose proof (extract_loop_inv svg p Hp Hsafe) as Hinv.
    pose proof (extract_loop_running svg p Hp Hsafe) as Hrun.
    pose proof (inv_untouched _ _ _ Hinv i Hi) as Hcur.
    specialize (IH Hp Hsafe).
    rewrite extract_loop_snoc, filter_has_id_snoc, omap_app.
    destruct (svg !! i) as [e|] eqn:He.
    + destruct (extract_each_components _ i e Hrun Hcur (Hsi e He)) as (m & Hm & ->).
      pose proof (Hsi e He) as Hown.
      destruct (decide (has_id svg s i)) as [Hhas | Hnot].
      * unfold has_id in Hhas. rewrite He in Hhas. simpl in Hhas.
        injection Hhas as Hid.
        assert (getAttribute_id e = VString s) as Hv.
        { unfold getAttribute_id. by rewrite Hid. }
        assert (truthy (VString s) = true) as Ht.
        { simpl. destruct (String.eqb s EmptyString) eqn:E; [|done].
          by apply String.eqb_eq in E. }
        simpl. unfold recorded at 2. rewrite He. simpl.
        unfold record_component, get_property in Hm. rewrite Hv, Ht in Hm.
        rewrite Hv in Hown.
        change (property_key (VString s)) with s in Hm, Hown.
        rewrite IH, Hown in Hm.
        destruct (omap (recorded svg) (filter (has_id svg s) p)) as [|c cs];
          injection Hm as <-; rewrite lookup_insert_eq; simpl.
        -- by rewrite Hv.
        -- rewrite Hv. f_equal. rewrite (app_comm_cons cs _ c), reverse_app. done.
      * simpl. rewrite app_nil_r, <- IH.
        assert (property_key (getAttribute_id e) ≠ s) as Hkey.
        { unfold has_id in Hnot. rewrite He in Hnot. simpl in Hnot.
          unfold getAttribute_id. destruct (attr_id e) as [t|]; simpl.
          - intros ->. by apply Hnot.
          - done. }
        apply (record_component_ne _ _ _ _ _ _ Hm). congruence.
    + rewrite (extract_each_absent _ i Hcur).
      rewrite decide_False; [by rewrite app_nil_r|].
      unfold has_id. by rewrite He.
Qed.

(** X9. On a document none of whose shape ids names a member that a plain
    object inherits, and for an id that is neither empty nor the text
    "null", the map handed to [setFlagComponents] has no own entry when no
    shape has the id, and else its entry lists the shapes with the id, the
    latest in the document first, each with its position, the id and the
    fill it had before the placeholder colour was set. *)
Theorem extractSvgData_entry (svg : list element) (s : string) :
  ids_safe svg = true →
  s ≠ EmptyString → s ≠ "null" →
  x_newFlagComponents (extractSvgData svg) !! s =
  match entry_of svg s with
  | [] => None
  | c :: cs => Some (c :: cs)
  end.
Proof.
  intros Hsafe Hs Hnull. unfold extractSvgData, entry_of.
  rewrite (entry_loop svg s _ (querySelectorAll_NoDup svg)
             (ids_safe_shapes svg Hsafe) Hs Hnull).
  destruct (omap (recorded svg) (filter (has_id svg s) (querySelectorAll svg)))
    as [|c cs] eqn:Hl; [done|].
  destruct (reverse (c :: cs)) as [|c' cs'] eqn:Hr; [|done].
  apply (f_equal length) in Hr. rewrite length_reverse in Hr. done.
Qed.

Lemma extractSvgData_entry_witness :
  ids_safe crescent_flag = true ∧
  x_newFlagComponents (extractSvgData crescent_flag) !! "moon" =
  Some [ {| c_el := 2; c_id := VString "moon"; c_color := VString "#FFFFFF" |};
         {| c_el := 1; c_id := VString "moon"; c_color := VString "#FFFFFF" |} ].
Proof.
  split; [reflexivity|].
  rewrite (extractSvgData_entry crescent_flag "moon");
    [reflexivity | reflexivity | discriminate | discriminate].
Defined.

(** ** Loading again *)

Lemma same_identity_lookup (svg svg' : list element) (j : nat) (e : element) :
  Forall2 same_identity svg svg' → svg !! j = Some e →
  ∃ e', svg' !! j = Some e' ∧ same_identity e e'.
Proof.
  intros H Hj. destruct (Forall2_lookup_l _ _ _ _ _ H Hj) as (e' & He' & Hsame). eauto.
Qed.

Lemma same_identity_class (svg svg' : list element) :
  Forall2 same_identity svg svg' →
  flag_component <$> svg = flag_component <$> svg'.
Proof.
  induction 1 as [|e e' svg svg' [Hf _] _ IH]; [done|].
  csimpl. by rewrite Hf, IH.
Qed.

Lemma same_identity_group_of (j : nat) (e e' : element) :
  same_identity e e' → group_of j e' = group_of j e.
Proof. intros [_ Hid]. unfold group_of. by rewrite Hid. Qed.

Lemma same_identity_groups_at (svg svg' : list element) (p : list nat) :
  Forall2 same_identity svg svg' → groups_at svg' p = groups_at svg p.
Proof.
  intros H. induction p as [|i p IH]; [done|].
  assert (group_of i <$> svg' !! i = group_of i <$> svg !! i) as Hi.
  { destruct (svg !! i) as [e|] eqn:He.
    - destruct (same_identity_lookup _ _ _ _ H He) as (e' & He' & Hsame).
      rewrite He'. simpl. by rewrite (same_identity_group_of i e e' Hsame).
    - assert (svg' !! i = None) as ->; [|done].
      apply lookup_ge_None. apply lookup_ge_None in He.
      by rewrite <- (Forall2_length _ _ _ H). }
  unfold groups_at in *. cbn [omap list_omap]. by rewrite Hi, IH.
Qed.

Lemma same_identity_shape_groups (svg svg' : list element) :
  Forall2 same_identity svg svg' → shape_groups svg' = shape_groups svg.
Proof.
  intros H. unfold shape_groups, querySelectorAll.
  rewrite <- (querySelectorAll_from_ext svg svg' 0 (same_identity_class _ _ H)).
  by rewrite (same_identity_groups_at svg svg').
Qed.

Lemma same_identity_ids_safe (svg svg' : list element) :
  Forall2 same_identity svg svg' → ids_safe svg' = ids_safe svg.
Proof.
  induction 1 as [|e e' svg svg' [Hf Hid] _ IH]; [done|].
  unfold ids_safe in *. cbn [forallb]. rewrite IH. f_equal.
  unfold safe_element, getAttribute_id. by rewrite Hf, Hid.
Qed.

(** X10. The placeholder colour of a shape depends on the classes and ids
    of the document only: on two documents that agree on them, whatever
    their fills and listeners, and none of whose shape ids names a member
    that a plain object inherits, [extractSvgData] leaves every shape with
    the same fill attribute. *)
Theorem placeholder_depends_on_identity (svg svg' : list element) (j : nat) (e : element) :
  ids_safe svg = true →
  Forall2 same_identity svg svg' → svg !! j = Some e → flag_component e = true →
  placeholder svg' j = placeholder svg j.
Proof.
  intros Hsafe H Hj Hf.
  assert (ids_safe svg' = true) as Hsafe'
    by (by rewrite (same_identity_ids_safe svg svg' H)).
  destruct (same_identity_lookup _ _ _ _ H Hj) as (e' & Hj' & Hsame).
  assert (flag_component e' = true) as Hf' by (destruct Hsame; congruence).
  destruct (placeholder_shape svg j e Hsafe Hj Hf) as (r & Hr & ->).
  destruct (placeholder_shape svg' j e' Hsafe' Hj' Hf') as (r' & Hr' & ->).
  rewrite (same_identity_shape_groups _ _ H), (same_identity_group_of j e e' Hsame) in Hr'.
  assert (r' = r) as ->; [|done].
  eapply (NoDup_lookup (shape_groups svg)); [apply first_seen_NoDup | done | done].
Qed.

Lemma placeholder_depends_on_identity_witness :
  ids_safe crescent_flag = true ∧
  placeholder [shape None "#123456"; shape (Some "moon") "#000000";
               shape (Some "moon") "#FF0000"; shape (Some "star") "#00FF00"] 2
  = placeholder crescent_flag 2.
Proof.
  split; [reflexivity|].
  apply (placeholder_depends_on_identity crescent_flag _ 2 (shape (Some "moon") "#FFFFFF")).
  - reflexivity.
  - repeat constructor.
  - reflexivity.
  - reflexivity.
Defined.

Lemma extractSvgData_same_identity (svg : list element) :
  Forall2 same_identity svg (x_svg (extractSvgData svg)).
Proof.
  apply Forall2_same_length_lookup_2; [by rewrite extractSvgData_length|].
  intros j e e' He He'.
  destruct (extractSvgData_cases svg j e He) as [Hsvg | (_ & r & Hsvg)];
    rewrite Hsvg in He'; injection He' as <-; by split.
Qed.

(** X11. On a document none of whose shape ids names a member that a plain
    object inherits, running [extractSvgData] again on the document it left
    gives every shape the fill it already has and one more listener, so
    that a click then runs [componentClick] twice; the colour the second
    listener captured is the placeholder colour, not the fill the shape had
    at first. *)
Theorem extractSvgData_twice (svg : list element) (j : nat) (e : element) :
  ids_safe svg = true →
  svg !! j = Some e → flag_component e = true →
  ∃ e1 e2 g,
    x_svg (extractSvgData svg) !! j = Some e1 ∧
    x_svg (extractSvgData (x_svg (extractSvgData svg))) !! j = Some e2 ∧
    attr_fill e1 = Some g ∧ attr_fill e2 = Some g ∧
    listeners e2 = listeners e ++
      [ {| l_el := j; l_id := getAttribute_id e; l_color := getAttribute_fill e |};
        {| l_el := j; l_id := getAttribute_id e; l_color := VString g |} ].
Proof.
  intros Hsafe Hj Hf.
  assert (ids_safe (x_svg (extractSvgData svg)) = true) as Hsafe1
    by (by rewrite (same_identity_ids_safe _ _ (extractSvgData_same_identity svg))).
  destruct (extractSvgData_shape svg j e Hsafe Hj Hf) as (r & Hr & H1).
  set (e1 := add_listener (listener_of j e) (set_fill (popped r) e)) in *.
  assert (flag_component e1 = true) as Hf1 by done.
  destruct (extractSvgData_shape _ j e1 Hsafe1 H1 Hf1) as (r' & Hr' & H2).
  rewrite (same_identity_shape_groups _ _ (extractSvgData_same_identity svg)) in Hr'.
  assert (group_of j e1 = group_of j e) as Hg by done. rewrite Hg in Hr'.
  assert (r' = r) as ->.
  { eapply (NoDup_lookup (shape_groups svg)); [apply first_seen_NoDup | done | done]. }
  eexists e1, _, (to_DOMString (popped r)). split_and!; [done | exact H2 | done | done |].
  simpl. by rewrite <- app_assoc.
Qed.

Lemma extractSvgData_twice_witness :
  ids_safe crescent_flag = true ∧
  ∃ e1 e2 g,
    x_svg (extractSvgData crescent_flag) !! 3 = Some e1 ∧
    x_svg (extractSvgData (x_svg (extractSvgData crescent_flag))) !! 3 = Some e2 ∧
    attr_fill e1 = Some g ∧ attr_fill e2 = Some g ∧
    listeners e2 = listeners (shape (Some "star") "#FFFFFF") ++
      [ {| l_el := 3; l_id := getAttribute_id (shape (Some "star") "#FFFFFF");
           l_color := getAttribute_fill (shape (Some "star") "#FFFFFF") |};
        {| l_el := 3; l_id := getAttribute_id (shape (Some "star") "#FFFFFF");
           l_color := VString g |} ].
Proof.
  split; [reflexivity|].
  apply (extractSvgData_twice crescent_flag 3 (shape (Some "star") "#FFFFFF"));
    reflexivity.
Defined.

(** ** The application *)

Lemma setSelectedColor_frame (c : value) (st : app_state) :
  app_flag (setSelectedColor c st) = app_flag st ∧
  flag_flagComponents (setSelectedColor c st) = flag_flagComponents st ∧
  flag_loading (setSelectedColor c st) = flag_loading st ∧
  document_svg (setSelectedColor c st) = document_svg st.
Proof.
  unfold setSelectedColor. case_decide; [done|].
  unfold picker_effect, selectColor, setColor. simpl. by case_decide.
Qed.

Lemma setFlag_frame (code : string) (st : app_state) :
  app_color (setFlag code st) = app_color st ∧
  picker_selectedColor (setFlag code st) = picker_selectedColor st ∧
  flag_flagComponents (setFlag code st) = flag_flagComponents st ∧
  flag_selectedColorRef (setFlag code st) = flag_selectedColorRef st ∧
  document_svg (setFlag code st) = document_svg st ∧
  selectColor_calls (setFlag code st) = selectColor_calls st.
Proof. unfold setFlag. by case_decide. Qed.

Lemma run_snoc (evs : list event) (ev : event) :
  run (evs ++ [ev]) = step (run evs) ev.
Proof. unfold run. by rewrite foldl_app. Qed.

Lemma forallb_snoc {A} (f : A → bool) (l : list A) (x : A) :
  forallb f (l ++ [x]) = true ↔ forallb f l = true ∧ f x = true.
Proof.
  rewrite forallb_app. simpl. rewrite andb_true_r. apply andb_true_iff.
Qed.

(** X12. Between the injection of a document and the next timeout of
    [loadFlag], no click, swatch or country selection changes anything in
    the document: its shapes carry no listener yet. *)
Theorem clicks_before_load_do_nothing (st : app_state) (doc : list element)
    (evs : list event) :
  forallb (fun ev => negb (is_load ev) && negb (is_injection ev)) evs = true →
  document_svg (foldl step (step st (Injected doc)) evs) = Some (injected <$> doc).
Proof.
  induction evs as [|ev evs IH] using rev_ind; intros Hevs; [done|].
  apply forallb_snoc in Hevs as [Hevs Hev]. specialize (IH Hevs).
  rewrite foldl_app. cbn [foldl].
  set (st' := foldl step (step st (Injected doc)) evs) in *.
  destruct ev as [n|code|doc'| |i]; simpl in Hev; try done; simpl.
  - destruct (swatches !! n); [|done].
    destruct (setSelectedColor_frame (VString s) st') as (_ & _ & _ & ->). done.
  - destruct (setFlag_frame code st') as (_ & _ & _ & _ & -> & _). done.
  - unfold dispatch_click. rewrite IH.
    destruct ((injected <$> doc) !! i) as [e|] eqn:He; [|done].
    rewrite list_lookup_fmap in He. destruct (doc !! i); [|done].
    injection He as <-. done.
Qed.

Lemma clicks_before_load_do_nothing_witness :
  document_svg (foldl step (step mount (Injected crescent_flag))
                  [PickSwatch 2; ClickShape 1; SelectCountry "tr"; ClickShape 0])
  = Some (injected <$> crescent_flag).
Proof.
  apply (clicks_before_load_do_nothing mount crescent_flag). reflexivity.
Defined.

(** X14. Picking swatches and selecting countries, in any number and order,
    changes neither the document nor the components that [Flag] holds:
    nothing is repainted until a shape is clicked. *)
Theorem selections_repaint_nothing (st : app_state) (evs : list event) :
  forallb (fun ev => negb (is_load ev) && negb (is_injection ev)
                     && negb (is_shape_click ev)) evs = true →
  document_svg (foldl step st evs) = document_svg st ∧
  flag_flagComponents (foldl step st evs) = flag_flagComponents st.
Proof.
  induction evs as [|ev evs IH] using rev_ind; intros Hevs; [done|].
  apply forallb_snoc in Hevs as [Hevs Hev]. destruct (IH Hevs) as [IH1 IH2].
  rewrite foldl_app. cbn [foldl].
  set (st' := foldl step st evs) in *.
  destruct ev as [n|code|doc'| |i]; simpl in Hev; try done; simpl.
  - destruct (swatches !! n); [|done].
    destruct (setSelectedColor_frame (VString s) st') as (_ & -> & _ & ->). done.
  - destruct (setFlag_frame code st') as (_ & _ & -> & _ & -> & _). done.
Qed.

Lemma selections_repaint_nothing_witness :
  document_svg (foldl step (run (load_then_pick 2))
                  [PickSwatch 0; SelectCountry "de"; PickSwatch 6])
  = document_svg (run (load_then_pick 2)).
Proof.
  apply (selections_repaint_nothing (run (load_then_pick 2))). reflexivity.
Defined.

(** Listeners are on shapes in every state the application reaches. *)
Lemma listeners_on_shapes_run (evs : list event) : listeners_on_shapes (run evs).
Proof.
  induction evs as [|ev evs IH] using rev_ind.
  - intros svg i e H. discriminate.
  - rewrite run_snoc. set (st := run evs) in *.
    destruct ev as [n|code|doc| |i]; simpl.
    + destruct (swatches !! n); [|done]. intros svg j e Hsvg.
      destruct (setSelectedColor_frame (VString s) st) as (_ & _ & _ & Hd).
      rewrite Hd in Hsvg. by apply IH.
    + intros svg j e Hsvg.
      destruct (setFlag_frame code st) as (_ & _ & _ & _ & Hd & _).
      rewrite Hd in Hsvg. by apply IH.
    + intros svg j e [= <-] Hj Hl. rewrite list_lookup_fmap in Hj.
      destruct (doc !! j); [|done]. injection Hj as <-. done.
    + intros svg j e Hsvg Hj Hl.
      destruct (document_svg st) as [svg0|] eqn:Hsvg0.
      * rewrite (loadFlag_timeout_svg st svg0 Hsvg0) in Hsvg. injection Hsvg as <-.
        destruct (svg0 !! j) as [e0|] eqn:Hj0.
        -- destruct (extractSvgData_cases svg0 j e0 Hj0) as [He | (Hf & r & He)];
             rewrite He in Hj; injection Hj as <-.
           ++ by apply (IH svg0 j e0).
           ++ done.
        -- apply lookup_lt_Some in Hj. rewrite extractSvgData_length in Hj.
           apply lookup_ge_None in Hj0. lia.
      * unfold loadFlag_timeout in Hsvg. rewrite Hsvg0 in Hsvg. congruence.
    + unfold dispatch_click. destruct (document_svg st) as [svg0|] eqn:Hsvg0; [|done].
      destruct (svg0 !! i) as [e0|] eqn:Hi0; [|done].
      simpl. intros svg j e [= <-] Hj Hl.
      apply run_listeners_same_but_fill in Hj as (e1 & He1 & (Ha & Hb & Hc)).
      rewrite Ha. apply (IH svg0 j e1 Hsvg0 He1). by rewrite <- Hc.
Qed.

Lemma kept_refl (e : element) : kept e e.
Proof. by split. Qed.

Lemma kept_trans (e1 e2 e3 : element) : kept e1 e2 → kept e2 e3 → kept e1 e3.
Proof.
  intros [[Ha Hb] Hc] [[Ha' Hb'] Hc']. split; [split; congruence|].
  intros Hf. rewrite Hc' by congruence. by apply Hc.
Qed.

Lemma Forall2_kept_refl (svg : list element) : Forall2 kept svg svg.
Proof. apply Forall_Forall2_diag, Forall_forall. intros e _. apply kept_refl. Qed.

Lemma Forall2_kept_trans (a b c : list element) :
  Forall2 kept a b → Forall2 kept b c → Forall2 kept a c.
Proof.
  intros Hab. revert c. induction Hab as [|x y a b Hxy _ IH]; intros c Hbc.
  - by inversion Hbc.
  - inversion Hbc as [|? z ? c' Hyz Hbc']; subst. constructor; [|by apply IH].
    by eapply kept_trans.
Qed.

Lemma step_kept (st : app_state) (ev : event) (svg : list element) :
  app_inv st → listeners_on_shapes st →
  document_svg st = Some svg → is_injection ev = false →
  ∃ svg', document_svg (step st ev) = Some svg' ∧ Forall2 kept svg svg'.
Proof.
  intros Hinv Hshapes Hsvg Hev.
  destruct ev as [n|code|doc| |i]; simpl in Hev; try done; simpl.
  - exists svg. split; [|apply Forall2_kept_refl].
    destruct (swatches !! n); [|done].
    destruct (setSelectedColor_frame (VString s) st) as (_ & _ & _ & ->). done.
  - exists svg. split; [|apply Forall2_kept_refl].
    destruct (setFlag_frame code st) as (_ & _ & _ & _ & -> & _). done.
  - eexists. split; [by apply loadFlag_timeout_svg|].
    apply Forall2_same_length_lookup_2; [by rewrite extractSvgData_length|].
    intros j e e' He He'.
    destruct (extractSvgData_cases svg j e He) as [Hx | (Hf & r & Hx)];
      rewrite Hx in He'; injection He' as <-.
    + split; [by split | done].
    + split; [by split|]. congruence.
  - unfold dispatch_click. rewrite Hsvg.
    destruct (svg !! i) as [ei|] eqn:Hi; [|exists svg; split; [done | apply Forall2_kept_refl]].
    simpl. eexists. split; [done|].
    destruct (listeners ei) as [|l0 ls] eqn:Hls; [apply Forall2_kept_refl|].
    assert (flag_component ei = true) as Hfi.
    { apply (Hshapes svg i ei Hsvg Hi). by rewrite Hls. }
    rewrite <- Hls.
    rewrite (run_listeners _ svg i (getAttribute_id ei)); cycle 1.
    { by rewrite Hls. }
    { intros l Hl. by apply (inv_listeners _ Hinv svg i ei l). }
    apply Forall2_same_length_lookup_2; [by rewrite componentClick_length|].
    intros j e e' He He'.
    pose proof He' as Hsame. apply componentClick_same_but_fill in Hsame
      as (e0 & He0 & (Ha & Hb & _)).
    rewrite He in He0. injection He0 as <-. split; [by split|].
    intros Hf. rewrite componentClick_lookup, He in He'. simpl in He'.
    injection He' as <-. rewrite Hf.
    destruct (truthy _); [done|]. case_decide as Hij; [|done].
    subst j. congruence.
Qed.

(** X13. From any state the application reaches, as long as no new document
    is injected, the document keeps its length and every element its class
    and id, and an element that is no shape is left wholly as it is: the
    viewer changes fills and listeners of shapes and nothing else. *)
Theorem viewer_keeps_identity (evs1 evs2 : list event) (svg : list element) :
  document_svg (run evs1) = Some svg →
  forallb (fun ev => negb (is_injection ev)) evs2 = true →
  ∃ svg', document_svg (run (evs1 ++ evs2)) = Some svg' ∧
          length svg' = length svg ∧ Forall2 kept svg svg'.
Proof.
  intros Hsvg. induction evs2 as [|ev evs2 IH] using rev_ind; intros Hevs.
  - rewrite app_nil_r. exists svg. split_and!; [done | done | apply Forall2_kept_refl].
  - apply forallb_snoc in Hevs as [Hevs Hev].
    destruct (IH Hevs) as (svg1 & Hsvg1 & Hlen1 & Hkept1).
    rewrite app_assoc, run_snoc.
    destruct (step_kept (run (evs1 ++ evs2)) ev svg1) as (svg2 & Hsvg2 & Hkept2).
    + apply app_inv_run.
    + apply listeners_on_shapes_run.
    + done.
    + by apply negb_true_iff.
    + exists svg2. split_and!; [done | | by eapply Forall2_kept_trans].
      rewrite <- Hlen1. symmetry. by eapply Forall2_length.
Qed.

Lemma viewer_keeps_identity_witness :
  ∃ svg', document_svg (run ([Injected crescent_flag] ++
                             [LoadTimeout; PickSwatch 2; ClickShape 1; LoadTimeout]))
          = Some svg' ∧
          length svg' = length (injected <$> crescent_flag) ∧
          Forall2 kept (injected <$> crescent_flag) svg'.
Proof.
  apply (viewer_keeps_identity [Injected crescent_flag]); reflexivity.
Defined.

(** ** The colour picker *)

Lemma no_repeat_snoc (calls : list value) (last_call c : value) :
  no_repeat calls → last calls = Some last_call → last_call ≠ c →
  no_repeat (calls ++ [c]).
Proof.
  intros Hnr Hlast Hne i x y Hx Hy.
  destruct (decide (S i < length calls)) as [Hlt|Hge].
  - rewrite lookup_app_l in Hx by lia. rewrite lookup_app_l in Hy by lia.
    by apply (Hnr i).
  - assert (S i = length calls) as Hi.
    { apply lookup_lt_Some in Hy. rewrite length_app in Hy. simpl in Hy. lia. }
    rewrite lookup_app_l in Hx by lia.
    rewrite lookup_app_r, Hi, Nat.sub_diag in Hy by lia. injection Hy as <-.
    rewrite last_lookup in Hlast.
    replace (pred (length calls)) with i in Hlast by lia. congruence.
Qed.

Lemma calls_step (st : app_state) (ev : event) :
  app_inv st →
  last (selectColor_calls st) = Some (app_color st) ∧
  head (selectColor_calls st) = Some VNull ∧
  no_repeat (selectColor_calls st) →
  last (selectColor_calls (step st ev)) = Some (app_color (step st ev)) ∧
  head (selectColor_calls (step st ev)) = Some VNull ∧
  no_repeat (selectColor_calls (step st ev)).
Proof.
  intros [_ Hpick _] (Hlast & Hhead & Hnr).
  destruct ev as [n|code|doc| |i];
    try (match goal with
         | |- context [step st ?ev] =>
             destruct (step_without_swatch st ev eq_refl) as (_ & Ha & Hb & _);
             rewrite Ha, Hb; by split_and!
         end).
  simpl. destruct (swatches !! n) as [c|]; [|by split_and!].
  unfold setSelectedColor. case_decide as Hc; [by split_and!|].
  unfold picker_effect, selectColor, setColor. simpl.
  assert (head (selectColor_calls st ++ [VString c]) = Some VNull) as Hhead2.
  { destruct (selectColor_calls st); [done | by simpl in *]. }
  assert (no_repeat (selectColor_calls st ++ [VString c])) as Hnr2.
  { eapply no_repeat_snoc; [done | exact Hlast |].
    rewrite <- Hpick. intros Heq. by apply Hc. }
  case_decide as Hd; simpl in *; rewrite last_snoc; split_and!; try done; congruence.
Qed.

(** X15. In every state the application reaches, the last argument given
    to [selectColor] is the colour that [App] holds, which is also the
    selection of [ColourPicker] and the current value of the ref of [Flag];
    the first call had [null]; and no two calls in a row have the same
    argument, a click on the swatch already selected calling nothing. *)
Theorem selectColor_follows_selection (evs : list event) :
  last (selectColor_calls (run evs)) = Some (app_color (run evs)) ∧
  picker_selectedColor (run evs) = app_color (run evs) ∧
  flag_selectedColorRef (run evs) = app_color (run evs) ∧
  head (selectColor_calls (run evs)) = Some VNull ∧
  no_repeat (selectColor_calls (run evs)).
Proof.
  pose proof (app_inv_run evs) as Hinv.
  assert (last (selectColor_calls (run evs)) = Some (app_color (run evs)) ∧
          head (selectColor_calls (run evs)) = Some VNull ∧
          no_repeat (selectColor_calls (run evs))) as (H1 & H2 & H3).
  { clear Hinv. induction evs as [|ev evs IH] using rev_ind.
    - split_and!; [done | done |]. intros i x y Hx Hy. by destruct i.
    - rewrite run_snoc. apply calls_step; [apply app_inv_run | done]. }
  split_and!; [done | apply Hinv | apply Hinv | done | done].
Qed.

(** ** The render of the colour picker *)

Lemma marked_selected_colour (selectedColor : value) (color : string) :
  marked_selected (colour selectedColor color) = strict_eq (VString color) selectedColor.
Proof. unfold marked_selected, colour. simpl. by destruct (strict_eq _ _). Qed.

Lemma swatches_NoDup : NoDup swatches.
Proof. unfold swatches. repeat (constructor; [set_solver|]). constructor. Qed.

Lemma render_marked (selectedColor : value) (l : list string) :
  filter (fun d => marked_selected d = true) (colour selectedColor <$> l)
  = colour selectedColor <$> filter (fun c => VString c = selectedColor) l.
Proof.
  induction l as [|c l IH]; [done|].
  rewrite fmap_cons, !filter_cons, IH, marked_selected_colour.
  unfold strict_eq. destruct (decide (VString c = selectedColor)) as [Heq|Hne].
  - rewrite bool_decide_eq_true_2 by done. by rewrite decide_True.
  - rewrite bool_decide_eq_false_2 by done. by rewrite decide_False.
Qed.

Lemma filter_unique_NoDup {A} (P : A → Prop) `{∀ x, Decision (P x)} (l : list A) :
  NoDup l → (∀ x y, P x → P y → x = y) → length (filter P l) ≤ 1.
Proof.
  intros Hnd Huniq. induction Hnd as [|x l Hx Hnd IH]; [simpl; lia|].
  rewrite filter_cons. case_decide as HP; [|done]. simpl.
  destruct (filter P l) as [|y l'] eqn:Hf; [simpl; lia|]. exfalso.
  assert (y ∈ filter P l) as Hy by (rewrite Hf; apply list_elem_of_here).
  apply list_elem_of_filter in Hy as [HPy Hy].
  by rewrite (Huniq x y HP HPy) in Hx.
Qed.

(** X16. In every state the application reaches, [ColourPicker] draws
    with the class [selected] exactly the swatches whose colour is the
    selected one: none while the selection is [null], never more than one,
    and after a click on a swatch that swatch alone. *)
Theorem picker_marks_selection (evs : list event) :
  (∀ d, d ∈ ColourPicker_render (run evs) →
     (marked_selected d = true ↔ VString (backgroundColor d) = app_color (run evs))) ∧
  length (filter (fun d => marked_selected d = true) (ColourPicker_render (run evs))) ≤ 1 ∧
  (app_color (run evs) = VNull →
   filter (fun d => marked_selected d = true) (ColourPicker_render (run evs)) = []) ∧
  (∀ n c, swatches !! n = Some c →
     filter (fun d => marked_selected d = true)
            (ColourPicker_render (step (run evs) (PickSwatch n)))
     = [colour (VString c) c]).
Proof.
  pose proof (app_inv_run evs) as Hinv. pose proof (inv_picked _ Hinv) as Hpick.
  unfold ColourPicker_render. split_and!.
  - intros d Hd. apply list_elem_of_fmap in Hd as (c & -> & _).
    rewrite marked_selected_colour, Hpick. unfold strict_eq. simpl.
    apply bool_decide_eq_true.
  - rewrite render_marked, length_fmap.
    apply filter_unique_NoDup; [apply swatches_NoDup | congruence].
  - intros Hnull. rewrite render_marked, Hpick, Hnull. done.
  - intros n c Hn.
    destruct (pick_swatch_color (run evs) n c Hinv Hn) as (_ & -> & _).
    rewrite render_marked.
    do 7 (destruct n as [|n]; [injection Hn as <-; reflexivity|]). done.
Qed.

(** ** The selected country and the visibility of the flag *)

Lemma step_flag (st : app_state) (ev : event) :
  app_flag (step st ev) =
  match ev with
  | SelectCountry code => code
  | _ => app_flag st
  end.
Proof.
  destruct ev as [n|code|doc| |i]; simpl.
  - destruct (swatches !! n); [|done].
    by destruct (setSelectedColor_frame (VString s) st) as (-> & _).
  - unfold setFlag. by case_decide.
  - done.
  - by destruct (loadFlag_timeout_frame st) as (-> & _).
  - unfold dispatch_click. destruct (document_svg st) as [svg|]; [|done].
    by destruct (svg !! i).
Qed.

(** X17. In every state the application reaches, the country code that
    [App] holds, and that [Flag] loads from [flags/<code>.svg], is the code
    of the last selection, or "ua" when no country was selected yet. *)
Theorem flag_follows_selection (evs : list event) :
  app_flag (run evs) = default "ua" (last (selected_countries evs)) ∧
  flag_src (run evs)
  = String.append "flags/"
      (String.append (default "ua" (last (selected_countries evs))) ".svg").
Proof.
  assert (app_flag (run evs) = default "ua" (last (selected_countries evs))) as H.
  { induction evs as [|ev evs IH] using rev_ind; [done|].
    rewrite run_snoc, step_flag. unfold selected_countries. rewrite omap_app.
    destruct ev as [n|code|doc| |i]; simpl; rewrite ?app_nil_r; try exact IH.
    by rewrite last_snoc. }
  split; [done|]. unfold flag_src. by rewrite H.
Qed.

Lemma step_loading (st : app_state) (ev : event) :
  (flag_loading st = false → is_Some (document_svg st)) →
  (flag_loading (step st ev) = false → is_Some (document_svg (step st ev))) ∧
  (is_load ev = false → flag_loading st = true → flag_loading (step st ev) = true).
Proof.
  intros Hinv. destruct ev as [n|code|doc| |i]; simpl.
  - destruct (swatches !! n); [|done].
    by destruct (setSelectedColor_frame (VString s) st) as (_ & _ & -> & ->).
  - destruct (setFlag_frame code st) as (_ & _ & _ & _ & -> & _).
    unfold setFlag. case_decide; simpl; [done|]. split; done.
  - split; [eauto | done].
  - unfold loadFlag_timeout. destruct (document_svg st) as [svg|] eqn:Hsvg; simpl.
    + destruct (x_thrown (extractSvgData svg)); simpl; split; eauto.
    + rewrite Hsvg. split; done.
  - unfold dispatch_click. destruct (document_svg st) as [svg|] eqn:Hsvg.
    + destruct (svg !! i); simpl; rewrite ?Hsvg; split; eauto.
    + rewrite Hsvg. split; done.
Qed.

(** X18. The container of the flag is hidden from the mount on and as long
    as no timeout of [loadFlag] has fired; whenever it is shown there is an
    injected document; the selection of another country hides it again,
    and the selection of the country already shown changes nothing. *)
Theorem flag_hidden_until_loaded (evs : list event) :
  (forallb (fun ev => negb (is_load ev)) evs = true → flag_hidden (run evs) = true) ∧
  (flag_hidden (run evs) = false → is_Some (document_svg (run evs))) ∧
  (∀ code, code ≠ app_flag (run evs) →
           flag_hidden (step (run evs) (SelectCountry code)) = true) ∧
  step (run evs) (SelectCountry (app_flag (run evs))) = run evs.
Proof.
  unfold flag_hidden. split_and!.
  - induction evs as [|ev evs IH] using rev_ind; [done|].
    intros Hevs. apply forallb_snoc in Hevs as [Hevs Hev].
    rewrite run_snoc.
    assert (Hshown : flag_loading (run evs) = false → is_Some (document_svg (run evs))).
    { rewrite (IH Hevs). done. }
    apply (step_loading _ ev Hshown); [by apply negb_true_iff | by apply IH].
  - induction evs as [|ev evs IH] using rev_ind; [done|].
    rewrite run_snoc. by apply step_loading.
  - intros code Hcode. simpl. unfold setFlag. by rewrite decide_False.
  - simpl. unfold setFlag. by rewrite decide_True.
Qed.

Lemma ids_safe_injected (doc : list element) :
  ids_safe (injected <$> doc) = ids_safe doc.
Proof.
  unfold ids_safe. induction doc as [|e doc IH]; [done|].
  rewrite fmap_cons. cbn [forallb]. by rewrite IH.
Qed.

(** X19. When a document none of whose shape ids names a member that a
    plain object inherits has been injected and the timeout of [loadFlag]
    fires, [Flag] shows its container, holds the map of [extractSvgData],
    and the document is loaded: it has the length of the injected one and
    each of its shapes carries exactly one listener. *)
Theorem inject_then_load (st : app_state) (doc : list element) :
  ids_safe doc = true →
  flag_hidden (step (step st (Injected doc)) LoadTimeout) = false ∧
  flag_flagComponents (step (step st (Injected doc)) LoadTimeout)
    = x_newFlagComponents (extractSvgData (injected <$> doc)) ∧
  ∃ svg, document_svg (step (step st (Injected doc)) LoadTimeout) = Some svg ∧
         loaded svg = true ∧ length svg = length doc ∧
         ∀ j e, svg !! j = Some e → flag_component e = true →
                ∃ l, listeners e = [l].
Proof.
  intros Hdoc.
  assert (ids_safe (injected <$> doc) = true) as Hsafe
    by (by rewrite ids_safe_injected).
  unfold flag_hidden. simpl. unfold loadFlag_timeout. simpl.
  rewrite (extractSvgData_running _ Hsafe). simpl.
  split_and!; [done | done |].
  eexists. split_and!; [done | by apply extractSvgData_loaded | |].
  - by rewrite extractSvgData_length, length_fmap.
  - intros j e Hj Hf.
    destruct ((injected <$> doc) !! j) as [e0|] eqn:Hj0.
    + destruct (flag_component e0) eqn:Hf0.
      * destruct (extractSvgData_shape _ j e0 Hsafe Hj0 Hf0) as (r & _ & He).
        rewrite He in Hj. injection Hj as <-. simpl.
        rewrite list_lookup_fmap in Hj0. destruct (doc !! j); [|done].
        injection Hj0 as <-. simpl. eauto.
      * rewrite (extractSvgData_other _ j e0 Hj0 Hf0) in Hj. congruence.
    + apply lookup_lt_Some in Hj. rewrite extractSvgData_length in Hj.
      apply lookup_ge_None in Hj0. lia.
Qed.

Lemma inject_then_load_witness :
  ids_safe crescent_flag = true ∧
  flag_hidden (run [Injected crescent_flag; LoadTimeout]) = false ∧
  flag_flagComponents (run [Injected crescent_flag; LoadTimeout])
    = x_newFlagComponents (extractSvgData (injected <$> crescent_flag)).
Proof.
  split; [reflexivity|].
  destruct (inject_then_load mount crescent_flag) as (Hshown & Hmap & _);
    [reflexivity|].
  split; [exact Hshown | exact Hmap].
Defined.

Lemma dispatch_click_eq (st : app_state) (svg : list element) (i : nat) (e : element) :
  document_svg st = Some svg → svg !! i = Some e →
  dispatch_click i st =
  with_svg (Some (foldl (fun d l => componentClick (flag_selectedColorRef st) d
                                      (l_el l) (l_id l) (l_color l))
                        svg (listeners e))) st.
Proof. intros Hsvg Hi. unfold dispatch_click. by rewrite Hsvg, Hi. Qed.

(** X20. In every state the application reaches, a second click on the
    same element, with no other event in between, changes nothing more. *)
Theorem click_twice_is_click_once (evs : list event) (i : nat) :
  step (step (run evs) (ClickShape i)) (ClickShape i) = step (run evs) (ClickShape i).
Proof.
  pose proof (app_inv_run evs) as Hinv. set (st := run evs) in *. simpl.
  destruct (document_svg st) as [svg|] eqn:Hsvg;
    [|unfold dispatch_click; by rewrite Hsvg, Hsvg].
  destruct (svg !! i) as [e|] eqn:Hi;
    [|unfold dispatch_click; by rewrite Hsvg, Hi, Hsvg, Hi].
  rewrite (dispatch_click_eq st svg i e Hsvg Hi).
  set (svg1 := foldl _ svg (listeners e)).
  destruct (svg1 !! i) as [e1|] eqn:Hi1;
    [|unfold dispatch_click; simpl; by rewrite Hi1].
  rewrite (dispatch_click_eq (with_svg (Some svg1) st) svg1 i e1 eq_refl Hi1). simpl.
  pose proof Hi1 as Hsame.
  apply run_listeners_same_but_fill in Hsame as (e0 & He0 & (_ & Hid & Hl)).
  rewrite Hi in He0. injection He0 as <-. rewrite Hl.
  destruct (listeners e) as [|l0 ls] eqn:Hls; [done|].
  assert (Hall : ∀ l, l ∈ l0 :: ls → l_el l = i ∧ l_id l = getAttribute_id e).
  { intros l Hin. apply (inv_listeners _ Hinv svg i e l Hsvg Hi). by rewrite Hls. }
  unfold svg1.
  rewrite !(run_listeners _ _ i (getAttribute_id e) (l0 :: ls)) by done.
  by rewrite componentClick_idemp.
Qed.

(** ** A load that throws *)

Lemma extract_loop_stays_thrown (st : extract_state) (l : list nat) :
  x_thrown st = true → foldl extract_each st l = st.
Proof.
  intros Ht. induction l as [|i l IH]; [done|].
  simpl. by rewrite (extract_each_thrown st i Ht).
Qed.

Lemma shapes_safe_ids (svg : list element) :
  Forall (safe_at svg) (querySelectorAll svg) → ids_safe svg = true.
Proof.
  intros Hsafe. unfold ids_safe. apply forallb_forall. intros e Hin.
  apply list_elem_of_In, list_elem_of_lookup in Hin as [j Hj].
  unfold safe_element. destruct (flag_component e) eqn:Hf; [|done]. simpl.
  apply negb_true_iff. rewrite Forall_forall in Hsafe.
  apply (Hsafe j); [|done]. apply elem_of_querySelectorAll. eauto.
Qed.

Lemma throws_at_None (svg : list element) :
  throws_at svg = None ↔ ids_safe svg = true.
Proof.
  unfold throws_at. rewrite list_find_None. split.
  - intros Hall. apply shapes_safe_ids.
    eapply Forall_impl; [exact Hall|]. intros j Hj. simpl in Hj.
    destruct (decide (safe_at svg j)); [done | by exfalso; apply Hj].
  - intros Hsafe. eapply Forall_impl; [exact (ids_safe_shapes svg Hsafe)|].
    intros j Hj Hn. by apply Hn.
Qed.

Lemma throws_at_Some (svg : list element) (k i : nat) :
  throws_at svg = Some (k, i) →
  querySelectorAll svg !! k = Some i ∧
  Forall (safe_at svg) (take k (querySelectorAll svg)) ∧
  ∃ e, svg !! i = Some e ∧ flag_component e = true ∧
       inherits (property_key (getAttribute_id e)) = true.
Proof.
  unfold throws_at. intros H. apply list_find_Some in H as (Hk & Hunsafe & Hbefore).
  split_and!; [done | |].
  - apply Forall_forall. intros j Hj. apply list_elem_of_lookup in Hj as [k' Hk'].
    apply lookup_take_Some in Hk' as [Hk' Hlt].
    destruct (decide (safe_at svg j)) as [|Hn]; [done|].
    exfalso. by apply (Hbefore k' j Hk' Hlt).
  - assert (i ∈ querySelectorAll svg) as Hin by (apply list_elem_of_lookup; eauto).
    apply elem_of_querySelectorAll in Hin as (e & He & Hf).
    exists e. split_and!; [done | done |].
    destruct (inherits _) eqn:E; [done|]. exfalso. apply Hunsafe.
    intros e' He'. rewrite He in He'. by injection He' as <-.
Qed.

Lemma extractSvgData_thrown (svg : list element) :
  x_thrown (extractSvgData svg) = negb (ids_safe svg).
Proof.
  destruct (ids_safe svg) eqn:Hsafe; [by apply extractSvgData_running|].
  destruct (x_thrown (extractSvgData svg)) eqn:Ht; [done|].
  assert (ids_safe svg = true) as Hall; [|congruence].
  apply shapes_safe_ids.
  by apply extract_loop_completed; [apply querySelectorAll_NoDup|].
Qed.

(** Where the loop stops when it throws, and what held on reaching that
    shape. *)
Lemma extractSvgData_throw (svg : list element) (k i : nat) :
  throws_at svg = Some (k, i) →
  extractSvgData svg = thrown (extract_before svg k) ∧
  x_thrown (extract_before svg k) = false ∧
  extract_inv svg (take k (querySelectorAll svg)) (extract_before svg k) ∧
  (∀ k' j, k ≤ k' → querySelectorAll svg !! k' = Some j →
     j ∉ take k (querySelectorAll svg)).
Proof.
  intros Hat. destruct (throws_at_Some svg k i Hat) as (Hk & Hsafe & e & He & Hf & Hin).
  pose proof (querySelectorAll_NoDup svg) as Hnd.
  assert (NoDup (take k (querySelectorAll svg))) as Hndk.
  { rewrite <- (take_drop k (querySelectorAll svg)) in Hnd.
    by apply NoDup_app in Hnd as (H & _ & _). }
  pose proof (extract_loop_inv svg _ Hndk Hsafe) as Hinv.
  pose proof (extract_loop_running svg _ Hndk Hsafe) as Hrun.
  fold (extract_before svg k) in Hinv, Hrun.
  assert (keys_safe (x_newFlagComponents (extract_before svg k))) as Hkeys.
  { destruct (extract_loop_reach svg _ Hndk) as (_ & _ & _ & _ & H & _). exact H. }
  assert (Hbefore : ∀ k' j, k ≤ k' → querySelectorAll svg !! k' = Some j →
            j ∉ take k (querySelectorAll svg)).
  { intros k' j Hle Hj Hjk. apply list_elem_of_lookup in Hjk as [k0 Hk0].
    apply lookup_take_Some in Hk0 as [Hk0 Hlt].
    assert (k0 = k') by (by eapply (NoDup_lookup (querySelectorAll svg))). lia. }
  split_and!; [| done | done | done].
  unfold extractSvgData, extract_loop.
  rewrite <- (take_drop_middle _ _ _ Hk) at 1. rewrite foldl_app. cbn [foldl].
  fold (extract_loop svg (take k (querySelectorAll svg))).
  fold (extract_before svg k).
  assert (x_svg (extract_before svg k) !! i = Some e) as Hcur.
  { rewrite (inv_untouched _ _ _ Hinv i); [done|]. by apply (Hbefore k). }
  rewrite (extract_each_throws _ i e Hrun Hcur Hkeys Hin).
  by apply extract_loop_stays_thrown.
Qed.

(** X21. [extractSvgData] throws the TypeError of line 46 exactly when a
    shape of the document has an id that names a member which a plain
    object inherits from [Object.prototype], such as "constructor". *)
Theorem extractSvgData_throws_iff (svg : list element) :
  x_thrown (extractSvgData svg) = negb (ids_safe svg) ∧
  (x_thrown (extractSvgData svg) = true ↔
   ∃ j e, svg !! j = Some e ∧ flag_component e = true ∧
          inherits (property_key (getAttribute_id e)) = true) ∧
  (x_thrown (extractSvgData svg) = true ↔ is_Some (throws_at svg)).
Proof.
  pose proof (extractSvgData_thrown svg) as Hthrown.
  split_and!; [done | |].
  - rewrite Hthrown, negb_true_iff. split.
    + intros Hunsafe. destruct (throws_at svg) as [[k i]|] eqn:Hat.
      * destruct (throws_at_Some svg k i Hat) as (_ & _ & e & He). eauto.
      * apply throws_at_None in Hat. congruence.
    + intros (j & e & He & Hf & Hin).
      destruct (ids_safe svg) eqn:Hsafe; [|done].
      assert (safe_at svg j) as Hj.
      { apply ids_safe_at; [done|]. apply elem_of_querySelectorAll. eauto. }
      specialize (Hj e He). congruence.
  - rewrite Hthrown, negb_true_iff. split.
    + intros Hunsafe. destruct (throws_at svg) as [ki|] eqn:Hat; [eauto|].
      apply throws_at_None in Hat. congruence.
    + intros [ki Hat]. destruct (ids_safe svg) eqn:Hsafe; [|done].
      apply throws_at_None in Hsafe. congruence.
Qed.

(** X22. When the [k]-th shape is the first whose id names an inherited
    member, [extractSvgData] stops there: its variables are as the loop had
    them on reaching that shape, so that the shapes before it have their
    placeholder colour and their listener, while that shape and every shape
    after it keep their fill and gain no listener. *)
Theorem extractSvgData_stops_at_throw (svg : list element) (k i : nat) :
  throws_at svg = Some (k, i) →
  extractSvgData svg = thrown (extract_before svg k) ∧
  x_thrown (extract_before svg k) = false ∧
  (∀ k' j e0, k' < k → querySelectorAll svg !! k' = Some j → svg !! j = Some e0 →
     ∃ r, x_svg (extractSvgData svg) !! j =
            Some (add_listener (listener_of j e0) (set_fill (popped r) e0))) ∧
  (∀ k' j, k ≤ k' → querySelectorAll svg !! k' = Some j →
     x_svg (extractSvgData svg) !! j = svg !! j).
Proof.
  intros Hat.
  destruct (extractSvgData_throw svg k i Hat) as (Hstop & Hrun & Hinv & Hbefore).
  split_and!; [done | done | |].
  - intros k' j e0 Hlt Hj He0. rewrite Hstop.
    destruct (inv_done _ _ _ Hinv j e0) as (r & _ & Hr); [|done|eauto].
    apply list_elem_of_lookup. exists k'. by rewrite lookup_take_lt.
  - intros k' j Hle Hj. rewrite Hstop.
    apply (inv_untouched _ _ _ Hinv). by apply (Hbefore k').
Qed.

Lemma extractSvgData_stops_at_throw_witness :
  throws_at constructor_flag = Some (1, 1) ∧
  x_svg (extractSvgData constructor_flag) =
    [add_listener (listener_of 0 (shape (Some "field") "#0057B7"))
       (set_fill (VString "#A7A7A7") (shape (Some "field") "#0057B7"));
     shape (Some "constructor") "#FFD700"; shape (Some "star") "#FFFFFF"].
Proof.
  split; [reflexivity|].
  destruct (extractSvgData_stops_at_throw constructor_flag 1 1) as (Hstop & _);
    [reflexivity|].
  rewrite Hstop. reflexivity.
Defined.

(** X23. When the injected document has a shape whose id names an
    inherited member, the timeout of [loadFlag] ends in the TypeError:
    neither [setFlagComponents] nor [setLoading] is called, so the container
    of the flag stays as hidden as it was and [Flag] keeps the components it
    held, and the document is left as [extractSvgData] had it when it
    threw, with a shape that carries no listener. *)
Theorem load_that_throws (st : app_state) (doc : list element) :
  ids_safe doc = false →
  flag_hidden (step (step st (Injected doc)) LoadTimeout) = flag_hidden st ∧
  flag_flagComponents (step (step st (Injected doc)) LoadTimeout)
    = flag_flagComponents st ∧
  document_svg (step (step st (Injected doc)) LoadTimeout)
    = Some (x_svg (extractSvgData (injected <$> doc))) ∧
  loaded (x_svg (extractSvgData (injected <$> doc))) = false.
Proof.
  intros Hdoc.
  assert (ids_safe (injected <$> doc) = false) as Hunsafe
    by (by rewrite ids_safe_injected).
  pose proof (extractSvgData_thrown (injected <$> doc)) as Hthrown.
  rewrite Hunsafe in Hthrown.
  unfold flag_hidden. simpl. unfold loadFlag_timeout. simpl.
  rewrite Hthrown. simpl. split_and!; [done | done | done |].
  destruct (throws_at (injected <$> doc)) as [[k i]|] eqn:Hki;
    [|apply throws_at_None in Hki; congruence].
  destruct (throws_at_Some _ k i Hki) as (Hk & _ & e & He & Hf & _).
  destruct (extractSvgData_throw _ k i Hki) as (Hstop & _ & Hinv & Hbefore).
  assert (x_svg (extractSvgData (injected <$> doc)) !! i = Some e) as Hafter.
  { rewrite Hstop. cbn [thrown x_svg]. rewrite <- He.
    apply (inv_untouched _ _ _ Hinv). by apply (Hbefore k). }
  destruct (loaded _) eqn:Hl; [|done].
  pose proof (loaded_lookup _ i e Hl Hafter Hf) as Hne.
  rewrite list_lookup_fmap in He. destruct (doc !! i); [|done].
  injection He as <-. done.
Qed.

Lemma load_that_throws_witness :
  ids_safe constructor_flag = false ∧
  flag_hidden (run [Injected constructor_flag; LoadTimeout]) = true ∧
  flag_flagComponents (run [Injected constructor_flag; LoadTimeout]) = ∅.
Proof.
  split; [reflexivity|].
  destruct (load_that_throws mount constructor_flag) as (Hh & Hm & _);
    [reflexivity|].
  split; [exact Hh | exact Hm].
Defined.
